(** * sqrl: execution helpers, runner adaptation and the statement cache

    A shallow embedding of [sqrl.go] (capability interfaces, execution
    helpers, [wrapRunner] and its adapters) and of the statement cacher
    ([stmtCacher], its janitor and its derived operations).

    Calls that leave the package (to a handle, to a [Preparer], to a
    prepared statement of database/sql) are recorded in a history of
    events.  An external object answers a call as a function of the
    history so far, so that the same call may be answered differently
    at different times. *)

From Stdlib Require Import ZArith Lia.
From stdpp Require Import base option list strings gmap fin_maps.

Set Warnings "-register-all,-clear-no-such-hyp".
Local Open Scope string_scope.
Local Open Scope list_scope.
Local Open Scope Z_scope.

(** ** Values of the Go side *)

(** [interface{}]: the arguments of a query.  A slice is itself a value,
    which is what a variadic parameter receives when a slice is passed
    without [...]. *)
Inductive value : Type :=
  | VNil
  | VInt (z : Z)
  | VStr (s : string)
  | VSlice (l : list value).

(** [error] values.  The five package-level sentinels are compared by
    identity; any other error is an [errorString]. *)
Inductive error : Type :=
  | ErrRunnerNotSet
  | ErrRunnerNotQueryRunner
  | ErrRunnerNotQueryRunnerContext
  | ErrRunnerNotQueryer
  | ErrRunnerNotQueryerContext
  | errorString (msg : string).

Definition error_Error (e : error) : string :=
  match e with
  | ErrRunnerNotSet => "cannot run; no Runner set (RunWith)"
  | ErrRunnerNotQueryRunner => "cannot QueryRow; Runner is not a QueryRower"
  | ErrRunnerNotQueryRunnerContext => "cannot QueryRow; Runner is not a QueryRowerContext"
  | ErrRunnerNotQueryer => "cannot Query; Runner is not a Queryer"
  | ErrRunnerNotQueryerContext => "cannot Query; Runner is not a QueryerContext"
  | errorString msg => msg
  end.

#[global] Instance error_eq_dec : EqDecision error.
Proof. solve_decision. Defined.

(** The errors of the guarded adapter, one for each optional capability. *)
Definition adapter_errors : list error :=
  [ErrRunnerNotQueryer; ErrRunnerNotQueryerContext;
   ErrRunnerNotQueryRunner; ErrRunnerNotQueryRunnerContext].

(** A Go result pair [(T, error)] of which exactly one side is set. *)
Inductive result (T : Type) : Type :=
  | Ok (t : T)
  | Err (e : error).
Arguments Ok {T} t.
Arguments Err {T} e.

(** [context.Context]; [Background] is [context.Background()]. *)
Inductive Context : Type :=
  | Background
  | WithCancel (id : nat).

(** database/sql's [sql.Result], [*sql.Rows] and [*sql.Row] (a row is
    known by what its [Scan] returns). *)
Record sqlResult : Type := { LastInsertId : Z; RowsAffected : Z }.
Inductive sqlRows : Type := mkSqlRows (id : positive).
Inductive sqlRow : Type := mkSqlRow (scanResult : option error).

(** [RowsScanner] (an interface): a [*sql.Rows] or a cursor of a custom
    handle. *)
Inductive RowsScanner : Type :=
  | rowsOfSql (r : sqlRows)
  | rowsCustom (id : positive).

(** [RowScanner] (an interface) and the package's [Row] struct
    [{RowScanner; err}].  [driverRow e] is a scanner implemented outside
    the package (a [*sql.Row], say) whose [Scan] returns [e]; [rowOfSql]
    is the conversion of a [*sql.Row] to the interface. *)
Inductive RowScanner : Type :=
  | nilRowScanner
  | driverRow (scanResult : option error)
  | RowPtr (r : Row)
with Row : Type :=
  | mkRow (inner : RowScanner) (err : option error).

Definition rowOfSql (r : sqlRow) : RowScanner :=
  let '(mkSqlRow e) := r in driverRow e.

Definition Row_RowScanner (r : Row) : RowScanner := let '(mkRow i _) := r in i.
Definition Row_err (r : Row) : option error := let '(mkRow _ e) := r in e.

(** What a call does: it returns, or it panics (a nil dereference). *)
Inductive outcome (A : Type) : Type :=
  | Returned (a : A)
  | Panicked.
Arguments Returned {A} a.
Arguments Panicked {A}.

(** Modelled from the spec: [Row.Scan] is not among the sources (only the
    struct literal [&Row{RowScanner: ..., err: ...}] is).  The spec says of
    the row result that it carries "either a live row cursor or a stored
    error", and that "scanning this result must surface that stored
    error": a stored error wins, otherwise the wrapped scanner scans. *)
Fixpoint RowScanner_Scan (rs : RowScanner) : outcome (option error) :=
  match rs with
  | nilRowScanner => Panicked
  | driverRow e => Returned e
  | RowPtr (mkRow inner err) =>
      match err with
      | Some e => Returned (Some e)
      | None => RowScanner_Scan inner
      end
  end.

(** ** The history of outside calls and the monad of the package *)

(** A prepared statement is named in the history by its identity (the
    pointer). *)
Inductive event : Type :=
  | EvExec (query : string) (args : list value)
  | EvExecContext (ctx : Context) (query : string) (args : list value)
  | EvQuery (query : string) (args : list value)
  | EvQueryContext (ctx : Context) (query : string) (args : list value)
  | EvQueryRow (query : string) (args : list value)
  | EvQueryRowContext (ctx : Context) (query : string) (args : list value)
  | EvPrepareContext (ctx : Context) (query : string)
  | EvStmtExecContext (s : positive) (ctx : Context) (args : list value)
  | EvStmtQueryContext (s : positive) (ctx : Context) (args : list value)
  | EvStmtQueryRowContext (s : positive) (ctx : Context) (args : list value)
  | EvStmtClose (s : positive).

Abbreviation history := (list event).

(** The world outside the package: the wall clock (nanoseconds) and the
    calls made so far. *)
Record world : Type := { now : Z; trace : history }.

Definition M (A : Type) : Type := world -> A * world.

Definition ret {A} (a : A) : M A := fun w => (a, w).

Definition bind {A B} (k : A -> M B) (m : M A) : M B :=
  fun w => let '(a, w') := m w in k a w'.

#[global] Instance M_ret : MRet M := @ret.
#[global] Instance M_bind : MBind M := @bind.

(** One call to an outside object: it answers from the history, and the
    call is appended to the history. *)
Definition call {A} (e : event) (answer : history -> A) : M A :=
  fun w => (answer (trace w), {| now := now w; trace := trace w ++ [e] |}).

(** [time.Now()]. *)
Definition time_Now : M Z := fun w => (now w, w).

(** Time passes: the clock moves on by [d] nanoseconds. *)
Definition elapse (d : N) (w : world) : world :=
  {| now := now w + Z.of_N d; trace := trace w |}.

(** ** Capability interfaces (sqrl.go) *)

Record Sqlizer : Type :=
  { ToSql : string * list value * option error }.

Record Execer : Type :=
  { Exec : string -> list value -> history -> result sqlResult }.

Record ExecerContext : Type :=
  { ExecContext : Context -> string -> list value -> history -> result sqlResult }.

Record Queryer : Type :=
  { Query : string -> list value -> history -> result RowsScanner }.

Record QueryerContext : Type :=
  { QueryContext : Context -> string -> list value -> history -> result RowsScanner }.

Record QueryRower : Type :=
  { QueryRow : string -> list value -> history -> RowScanner }.

Record QueryRowerContext : Type :=
  { QueryRowContext : Context -> string -> list value -> history -> RowScanner }.

(** A method call through an interface value. *)
Definition callExec (db : Execer) query args : M (result sqlResult) :=
  call (EvExec query args) (Exec db query args).
Definition callExecContext (db : ExecerContext) ctx query args : M (result sqlResult) :=
  call (EvExecContext ctx query args) (ExecContext db ctx query args).
Definition callQuery (db : Queryer) query args : M (result RowsScanner) :=
  call (EvQuery query args) (Query db query args).
Definition callQueryContext (db : QueryerContext) ctx query args : M (result RowsScanner) :=
  call (EvQueryContext ctx query args) (QueryContext db ctx query args).
Definition callQueryRow (db : QueryRower) query args : M RowScanner :=
  call (EvQueryRow query args) (QueryRow db query args).
Definition callQueryRowContext (db : QueryRowerContext) ctx query args : M RowScanner :=
  call (EvQueryRowContext ctx query args) (QueryRowContext db ctx query args).

(** ** Execution helpers *)

Definition ExecWith (db : Execer) (s : Sqlizer) : M (result sqlResult) :=
  let '(query, args, err) := ToSql s in
  match err with
  | Some e => ret (Err e)
  | None => callExec db query args
  end.

Definition ExecWithContext (ctx : Context) (db : ExecerContext) (s : Sqlizer)
  : M (result sqlResult) :=
  let '(query, args, err) := ToSql s in
  match err with
  | Some e => ret (Err e)
  | None => callExecContext db ctx query args
  end.

Definition QueryWith (db : Queryer) (s : Sqlizer) : M (result RowsScanner) :=
  let '(query, args, err) := ToSql s in
  match err with
  | Some e => ret (Err e)
  | None => callQuery db query args
  end.

Definition QueryWithContext (ctx : Context) (db : QueryerContext) (s : Sqlizer)
  : M (result RowsScanner) :=
  let '(query, args, err) := ToSql s in
  match err with
  | Some e => ret (Err e)
  | None => callQueryContext db ctx query args
  end.

(** The operand [db.QueryRow(query, args...)] of the struct literal is
    evaluated whatever [err] is. *)
Definition QueryRowWith (db : QueryRower) (s : Sqlizer) : M RowScanner :=
  let '(query, args, err) := ToSql s in
  inner ← callQueryRow db query args;
  ret (RowPtr (mkRow inner err)).

Definition QueryRowWithContext (ctx : Context) (db : QueryRowerContext) (s : Sqlizer)
  : M RowScanner :=
  let '(query, args, err) := ToSql s in
  inner ← callQueryRowContext db ctx query args;
  ret (RowPtr (mkRow inner err)).

(** [ValuesBuilder.ToSql] on a builder without rows: the guard
    [len(vb.values) == 0] sets [err] and returns the zero [sqlStr] and
    [args]. *)
Definition emptyValuesBuilder : Sqlizer :=
  {| ToSql := (EmptyString, [], Some (errorString "values list is empty")) |}.

(** ** Handles *)

(** The methods of database/sql's [*sql.DB] and [*sql.Tx] that the
    package uses.  Their [Query] returns a [*sql.Rows] and their
    [QueryRow] a [*sql.Row], not the package's interfaces. *)
Record sqlDB : Type :=
  { DB_Exec : string -> list value -> history -> result sqlResult;
    DB_ExecContext : Context -> string -> list value -> history -> result sqlResult;
    DB_Query : string -> list value -> history -> result sqlRows;
    DB_QueryContext : Context -> string -> list value -> history -> result sqlRows;
    DB_QueryRow : string -> list value -> history -> sqlRow;
    DB_QueryRowContext : Context -> string -> list value -> history -> sqlRow }.

Record sqlTx : Type :=
  { Tx_Exec : string -> list value -> history -> result sqlResult;
    Tx_ExecContext : Context -> string -> list value -> history -> result sqlResult;
    Tx_Query : string -> list value -> history -> result sqlRows;
    Tx_QueryContext : Context -> string -> list value -> history -> result sqlRows;
    Tx_QueryRow : string -> list value -> history -> sqlRow;
    Tx_QueryRowContext : Context -> string -> list value -> history -> sqlRow }.

(** A handle of any other type: the base contract, and each optional
    capability when its method set has it. *)
Record customHandle : Type :=
  { c_Execer : Execer;
    c_ExecerContext : ExecerContext;
    c_Queryer : option Queryer;
    c_QueryerContext : option QueryerContext;
    c_QueryRower : option QueryRower;
    c_QueryRowerContext : option QueryRowerContext }.

(** A [BaseRunner] value, by its dynamic type. *)
Inductive BaseRunner : Type :=
  | ptrSqlDB (db : sqlDB)
  | ptrSqlTx (tx : sqlTx)
  | custom (c : customHandle).

Definition BaseRunner_Execer (b : BaseRunner) : Execer :=
  match b with
  | ptrSqlDB db => {| Exec := DB_Exec db |}
  | ptrSqlTx tx => {| Exec := Tx_Exec tx |}
  | custom c => c_Execer c
  end.

Definition BaseRunner_ExecerContext (b : BaseRunner) : ExecerContext :=
  match b with
  | ptrSqlDB db => {| ExecContext := DB_ExecContext db |}
  | ptrSqlTx tx => {| ExecContext := Tx_ExecContext tx |}
  | custom c => c_ExecerContext c
  end.

(** The [Runner] method set. *)
Record RunnerMethods : Type :=
  { R_Execer : Execer;
    R_ExecerContext : ExecerContext;
    R_Queryer : Queryer;
    R_QueryerContext : QueryerContext;
    R_QueryRower : QueryRower;
    R_QueryRowerContext : QueryRowerContext }.

(** Type assertions [b.(T)].  [*sql.DB] and [*sql.Tx] have none of the
    four optional interfaces: the result types of their methods differ
    (which is why [dbRunner] and [txRunner] exist). *)
Definition assertSqlDB (b : BaseRunner) : option sqlDB :=
  match b with ptrSqlDB db => Some db | _ => None end.

Definition assertSqlTx (b : BaseRunner) : option sqlTx :=
  match b with ptrSqlTx tx => Some tx | _ => None end.

Definition assertQueryer (b : BaseRunner) : option Queryer :=
  match b with custom c => c_Queryer c | _ => None end.

Definition assertQueryerContext (b : BaseRunner) : option QueryerContext :=
  match b with custom c => c_QueryerContext c | _ => None end.

Definition assertQueryRower (b : BaseRunner) : option QueryRower :=
  match b with custom c => c_QueryRower c | _ => None end.

Definition assertQueryRowerContext (b : BaseRunner) : option QueryRowerContext :=
  match b with custom c => c_QueryRowerContext c | _ => None end.

Definition assertRunner (b : BaseRunner) : option RunnerMethods :=
  match assertQueryer b, assertQueryerContext b,
        assertQueryRower b, assertQueryRowerContext b with
  | Some q, Some qc, Some qr, Some qrc =>
      Some {| R_Execer := BaseRunner_Execer b;
              R_ExecerContext := BaseRunner_ExecerContext b;
              R_Queryer := q; R_QueryerContext := qc;
              R_QueryRower := qr; R_QueryRowerContext := qrc |}
  | _, _, _, _ => None
  end.

(** ** Adapters *)

(** Conversion of database/sql's result pairs to the package's
    interfaces. *)
Definition rowsResult (r : result sqlRows) : result RowsScanner :=
  match r with
  | Ok rows => Ok (rowsOfSql rows)
  | Err e => Err e
  end.

(** [dbRunner] wraps [*sql.DB]. *)
Definition dbRunner_QueryRow (r : sqlDB) query args : M RowScanner :=
  call (EvQueryRow query args) (fun h => rowOfSql (DB_QueryRow r query args h)).

Definition dbRunner_QueryRowContext (r : sqlDB) ctx query args : M RowScanner :=
  call (EvQueryRowContext ctx query args)
       (fun h => rowOfSql (DB_QueryRowContext r ctx query args h)).

Definition dbRunner_Query (r : sqlDB) query args : M (result RowsScanner) :=
  call (EvQuery query args) (fun h => rowsResult (DB_Query r query args h)).

Definition dbRunner_QueryContext (r : sqlDB) ctx query args : M (result RowsScanner) :=
  call (EvQueryContext ctx query args)
       (fun h => rowsResult (DB_QueryContext r ctx query args h)).

(** [txRunner] wraps [*sql.Tx]. *)
Definition txRunner_QueryRow (r : sqlTx) query args : M RowScanner :=
  call (EvQueryRow query args) (fun h => rowOfSql (Tx_QueryRow r query args h)).

Definition txRunner_QueryRowContext (r : sqlTx) ctx query args : M RowScanner :=
  call (EvQueryRowContext ctx query args)
       (fun h => rowOfSql (Tx_QueryRowContext r ctx query args h)).

Definition txRunner_Query (r : sqlTx) query args : M (result RowsScanner) :=
  call (EvQuery query args) (fun h => rowsResult (Tx_Query r query args h)).

Definition txRunner_QueryContext (r : sqlTx) ctx query args : M (result RowsScanner) :=
  call (EvQueryContext ctx query args)
       (fun h => rowsResult (Tx_QueryContext r ctx query args h)).

(** [otherRunner] wraps a [BaseRunner] and asserts the capability on
    every call.  [QueryRow] and [QueryRowContext] pass [args], not
    [args...]: the callee's variadic parameter receives one value, the
    slice. *)
Definition otherRunner_QueryRow (r : BaseRunner) query (args : list value) : M RowScanner :=
  match assertQueryRower r with
  | None => ret (RowPtr (mkRow nilRowScanner (Some ErrRunnerNotQueryRunner)))
  | Some queryRower => callQueryRow queryRower query [VSlice args]
  end.

Definition otherRunner_QueryRowContext (r : BaseRunner) ctx query (args : list value)
  : M RowScanner :=
  match assertQueryRowerContext r with
  | None => ret (RowPtr (mkRow nilRowScanner (Some ErrRunnerNotQueryRunnerContext)))
  | Some queryRower => callQueryRowContext queryRower ctx query [VSlice args]
  end.

Definition otherRunner_Query (r : BaseRunner) query (args : list value)
  : M (result RowsScanner) :=
  match assertQueryer r with
  | None => ret (Err ErrRunnerNotQueryer)
  | Some queryer => callQuery queryer query args
  end.

Definition otherRunner_QueryContext (r : BaseRunner) ctx query (args : list value)
  : M (result RowsScanner) :=
  match assertQueryerContext r with
  | None => ret (Err ErrRunnerNotQueryerContext)
  | Some queryer => callQueryContext queryer ctx query args
  end.

(** [Exec] and [ExecContext] are promoted from the embedded field. *)
Definition otherRunner_Exec (r : BaseRunner) query args : M (result sqlResult) :=
  callExec (BaseRunner_Execer r) query args.

Definition otherRunner_ExecContext (r : BaseRunner) ctx query args : M (result sqlResult) :=
  callExecContext (BaseRunner_ExecerContext r) ctx query args.

(** A [Runner] value, by its dynamic type: one of the three adapters, or
    the handle itself seen through its own [Runner] method set. *)
Inductive Runner : Type :=
  | dbRunner (DB : sqlDB)
  | txRunner (Tx : sqlTx)
  | itself (r : BaseRunner) (m : RunnerMethods)
  | otherRunner (base : BaseRunner).

(** The type switch of [wrapRunner], its cases tried from the top. *)
Definition wrapRunner (baseRunner : BaseRunner) : Runner :=
  match assertSqlDB baseRunner with
  | Some r => dbRunner r
  | None =>
  match assertSqlTx baseRunner with
  | Some r => txRunner r
  | None =>
  match assertRunner baseRunner with
  | Some r => itself baseRunner r
  | None => otherRunner baseRunner
  end end end.

(** The same switch with the type tests it makes on the way written
    down.  A type switch tries its cases from the top and takes the
    first whose type the value has; [default] is taken when none has. *)
Inductive caseType : Type :=
  | typeSqlDB
  | typeSqlTx
  | typeRunner.

(** The test [baseRunner.(T)] of a case and, when it holds, the body of
    that case. *)
Definition case_body (t : caseType) (baseRunner : BaseRunner) : option Runner :=
  match t with
  | typeSqlDB => dbRunner <$> assertSqlDB baseRunner
  | typeSqlTx => txRunner <$> assertSqlTx baseRunner
  | typeRunner => itself baseRunner <$> assertRunner baseRunner
  end.

(** The types tested, in the order they were tested in, and the runner
    returned. *)
Fixpoint typeSwitch (cases : list caseType) (baseRunner : BaseRunner)
  : list caseType * Runner :=
  match cases with
  | [] => ([], otherRunner baseRunner)
  | t :: rest =>
      match case_body t baseRunner with
      | Some runner => ([t], runner)
      | None =>
          let '(tested, runner) := typeSwitch rest baseRunner in
          (t :: tested, runner)
      end
  end.

(** The cases of [wrapRunner] as the source lists them. *)
Definition wrapRunner_cases : list caseType := [typeSqlDB; typeSqlTx; typeRunner].

Definition wrapRunner_switch (baseRunner : BaseRunner) : list caseType * Runner :=
  typeSwitch wrapRunner_cases baseRunner.

(** The order of the design rule: the full contract first, then the
    built-in types, then the guarded adapter. *)
Definition designRule_cases : list caseType := [typeRunner; typeSqlDB; typeSqlTx].

(** Method calls on a [Runner]. *)
Definition Runner_Exec (r : Runner) query args : M (result sqlResult) :=
  match r with
  | dbRunner db => call (EvExec query args) (DB_Exec db query args)
  | txRunner tx => call (EvExec query args) (Tx_Exec tx query args)
  | itself _ m => callExec (R_Execer m) query args
  | otherRunner b => otherRunner_Exec b query args
  end.

Definition Runner_ExecContext (r : Runner) ctx query args : M (result sqlResult) :=
  match r with
  | dbRunner db => call (EvExecContext ctx query args) (DB_ExecContext db ctx query args)
  | txRunner tx => call (EvExecContext ctx query args) (Tx_ExecContext tx ctx query args)
  | itself _ m => callExecContext (R_ExecerContext m) ctx query args
  | otherRunner b => otherRunner_ExecContext b ctx query args
  end.

Definition Runner_Query (r : Runner) query args : M (result RowsScanner) :=
  match r with
  | dbRunner db => dbRunner_Query db query args
  | txRunner tx => txRunner_Query tx query args
  | itself _ m => callQuery (R_Queryer m) query args
  | otherRunner b => otherRunner_Query b query args
  end.

Definition Runner_QueryContext (r : Runner) ctx query args : M (result RowsScanner) :=
  match r with
  | dbRunner db => dbRunner_QueryContext db ctx query args
  | txRunner tx => txRunner_QueryContext tx ctx query args
  | itself _ m => callQueryContext (R_QueryerContext m) ctx query args
  | otherRunner b => otherRunner_QueryContext b ctx query args
  end.

Definition Runner_QueryRow (r : Runner) query args : M RowScanner :=
  match r with
  | dbRunner db => dbRunner_QueryRow db query args
  | txRunner tx => txRunner_QueryRow tx query args
  | itself _ m => callQueryRow (R_QueryRower m) query args
  | otherRunner b => otherRunner_QueryRow b query args
  end.

Definition Runner_QueryRowContext (r : Runner) ctx query args : M RowScanner :=
  match r with
  | dbRunner db => dbRunner_QueryRowContext db ctx query args
  | txRunner tx => txRunner_QueryRowContext tx ctx query args
  | itself _ m => callQueryRowContext (R_QueryRowerContext m) ctx query args
  | otherRunner b => otherRunner_QueryRowContext b ctx query args
  end.

(** ** The statement cacher *)

(** [time.Duration] is an int64 count of nanoseconds; [Time.Sub]
    saturates at its bounds, and [time.Since(t)] is [time.Now().Sub(t)]. *)
Definition maxDuration : Z := 2 ^ 63 - 1.
Definition minDuration : Z := - 2 ^ 63.

Definition time_Sub (t u : Z) : Z :=
  let d := t - u in
  if maxDuration <? d then maxDuration
  else if d <? minDuration then minDuration
  else d.

Definition time_Since (t : Z) : M Z :=
  n ← time_Now; ret (time_Sub n t).

Definition time_Hour : Z := 3600 * 1000000000.

Definition maxAge : Z := 4 * time_Hour.

(** database/sql's [*sql.Stmt]: its identity and the methods the cacher
    calls. *)
Record sqlStmt : Type :=
  { Stmt_id : positive;
    Stmt_ExecContext : Context -> list value -> history -> result sqlResult;
    Stmt_QueryContext : Context -> list value -> history -> result sqlRows;
    Stmt_QueryRowContext : Context -> list value -> history -> sqlRow;
    Stmt_Close : history -> option error }.

Record Preparer : Type :=
  { Prepare : string -> history -> result sqlStmt;
    PrepareContext : Context -> string -> history -> result sqlStmt }.

Record savedStmt : Type :=
  { stmt : sqlStmt;
    lastUse : Z }.

(** The mutex [mu] is not a field here: a method that locks on entry
    and unlocks on return is one atomic transition of the cacher (the
    locking itself is modelled with the threads, below). *)
Record stmtCacher : Type :=
  { prep : Preparer;
    cache : gmap string savedStmt }.

Definition with_cache (sc : stmtCacher) (c : gmap string savedStmt) : stmtCacher :=
  {| prep := prep sc; cache := c |}.

(** [NewStmtCacher], without the janitor it starts. *)
Definition NewStmtCacher (p : Preparer) : stmtCacher :=
  {| prep := p; cache := ∅ |}.

(** *** The janitor *)

(** The body of [for k, v := range sc.cache]. *)
Definition cleanup_entry (maxAge : Z) (kv : string * savedStmt) (sc : stmtCacher)
  : M stmtCacher :=
  idle ← time_Since (lastUse kv.2);
  if maxAge <? idle then
    _ ← call (EvStmtClose (Stmt_id (stmt kv.2))) (Stmt_Close (stmt kv.2));
    ret (with_cache sc (delete kv.1 (cache sc)))
  else ret sc.

(** One tick of [startCleanup]: the critical section between [Lock] and
    [Unlock].  [order] is the order in which [range] yields the entries
    of the map, which Go leaves unspecified. *)
Fixpoint cleanup_range (maxAge : Z) (order : list (string * savedStmt)) (sc : stmtCacher)
  : M stmtCacher :=
  match order with
  | [] => ret sc
  | kv :: rest => sc' ← cleanup_entry maxAge kv sc; cleanup_range maxAge rest sc'
  end.

(** A tick that ranges in the order of [map_to_list]. *)
Definition startCleanup_tick (maxAge : Z) (sc : stmtCacher) : M stmtCacher :=
  cleanup_range maxAge (map_to_list (cache sc)) sc.

(** A tick during which time passes: [d] nanoseconds go by before the
    entry that comes with it is looked at. *)
Fixpoint cleanup_range_timed (maxAge : Z) (order : list (N * (string * savedStmt)))
    (sc : stmtCacher) : M stmtCacher :=
  match order with
  | [] => ret sc
  | (d, kv) :: rest =>
      fun w =>
        let '(sc', w') := cleanup_entry maxAge kv sc (elapse d w) in
        cleanup_range_timed maxAge rest sc' w'
  end.

(** *** Operations *)

Definition stmtCacher_PrepareContext (ctx : Context) (query : string) (sc : stmtCacher)
  : M (result sqlStmt * stmtCacher) :=
  match cache sc !! query with
  | Some s =>
      t ← time_Now;
      ret (Ok (stmt s),
           with_cache sc (<[query := {| stmt := stmt s; lastUse := t |}]> (cache sc)))
  | None =>
      r ← call (EvPrepareContext ctx query) (PrepareContext (prep sc) ctx query);
      match r with
      | Err e => ret (Err e, sc)
      | Ok st =>
          t ← time_Now;
          ret (Ok st,
               with_cache sc (<[query := {| stmt := st; lastUse := t |}]> (cache sc)))
      end
  end.

Definition stmtCacher_ExecContext (ctx : Context) (query : string) (args : list value)
    (sc : stmtCacher) : M (result sqlResult * stmtCacher) :=
  '(r, sc') ← stmtCacher_PrepareContext ctx query sc;
  match r with
  | Err e => ret (Err e, sc')
  | Ok st =>
      res ← call (EvStmtExecContext (Stmt_id st) ctx args) (Stmt_ExecContext st ctx args);
      ret (res, sc')
  end.

Definition stmtCacher_QueryContext (ctx : Context) (query : string) (args : list value)
    (sc : stmtCacher) : M (result RowsScanner * stmtCacher) :=
  '(r, sc') ← stmtCacher_PrepareContext ctx query sc;
  match r with
  | Err e => ret (Err e, sc')
  | Ok st =>
      rows ← call (EvStmtQueryContext (Stmt_id st) ctx args)
                  (fun h => rowsResult (Stmt_QueryContext st ctx args h));
      ret (rows, sc')
  end.

Definition stmtCacher_QueryRowContext (ctx : Context) (query : string) (args : list value)
    (sc : stmtCacher) : M (RowScanner * stmtCacher) :=
  '(r, sc') ← stmtCacher_PrepareContext ctx query sc;
  match r with
  | Err e => ret (RowPtr (mkRow nilRowScanner (Some e)), sc')
  | Ok st =>
      row ← call (EvStmtQueryRowContext (Stmt_id st) ctx args)
                 (fun h => rowOfSql (Stmt_QueryRowContext st ctx args h));
      ret (row, sc')
  end.

Definition stmtCacher_Prepare (query : string) (sc : stmtCacher)
  : M (result sqlStmt * stmtCacher) :=
  stmtCacher_PrepareContext Background query sc.

Definition stmtCacher_Exec (query : string) (args : list value) (sc : stmtCacher)
  : M (result sqlResult * stmtCacher) :=
  stmtCacher_ExecContext Background query args sc.

Definition stmtCacher_Query (query : string) (args : list value) (sc : stmtCacher)
  : M (result RowsScanner * stmtCacher) :=
  stmtCacher_QueryContext Background query args sc.

Definition stmtCacher_QueryRow (query : string) (args : list value) (sc : stmtCacher)
  : M (RowScanner * stmtCacher) :=
  stmtCacher_QueryRowContext Background query args sc.

(** *** The cacher over time *)

(** What can happen to a cacher between two calls: any of its
    operations, a janitor tick, or time passing. *)
Inductive op : Type :=
  | OpPrepareContext (ctx : Context) (query : string)
  | OpExecContext (ctx : Context) (query : string) (args : list value)
  | OpQueryContext (ctx : Context) (query : string) (args : list value)
  | OpQueryRowContext (ctx : Context) (query : string) (args : list value)
  | OpTick (maxAge : Z)
  | OpElapse (d : N).

Definition run_op (o : op) (st : stmtCacher * world) : stmtCacher * world :=
  let '(sc, w) := st in
  match o with
  | OpPrepareContext ctx q =>
      let '(_, sc', w') := stmtCacher_PrepareContext ctx q sc w in (sc', w')
  | OpExecContext ctx q args =>
      let '(_, sc', w') := stmtCacher_ExecContext ctx q args sc w in (sc', w')
  | OpQueryContext ctx q args =>
      let '(_, sc', w') := stmtCacher_QueryContext ctx q args sc w in (sc', w')
  | OpQueryRowContext ctx q args =>
      let '(_, sc', w') := stmtCacher_QueryRowContext ctx q args sc w in (sc', w')
  | OpTick age => startCleanup_tick age sc w
  | OpElapse d => (sc, elapse d w)
  end.

Definition run_ops (ops : list op) (st : stmtCacher * world) : stmtCacher * world :=
  foldl (fun st o => run_op o st) st ops.

(** [still_cached q st st']: [st'] is reached from [st] and the entry of
    [q] was in the map after every step on the way (it was not evicted). *)
Inductive still_cached (q : string) : stmtCacher * world -> stmtCacher * world -> Prop :=
  | still_here st : still_cached q st st
  | still_after st st' o :
      still_cached q st st' ->
      is_Some (cache (run_op o st').1 !! q) ->
      still_cached q st (run_op o st').

(** The prepare calls of a history, and the statements it closes. *)
Definition prepare_calls (h : history) : list (Context * string) :=
  omap (fun e => match e with EvPrepareContext c q => Some (c, q) | _ => None end) h.

Definition closed_stmts (h : history) : list positive :=
  omap (fun e => match e with EvStmtClose s => Some s | _ => None end) h.

(** *** Concurrent callers of [PrepareContext] *)

(** Where a caller stands in the body of [PrepareContext]. *)
Inductive pc : Type :=
  | AtLock                          (* before [sc.mu.Lock()] *)
  | AtLookup                        (* lock held, before [sc.cache[query]] *)
  | AtPrepare                       (* miss, before [sc.prep.PrepareContext] *)
  | AtStore (st : sqlStmt)          (* prepared, before [sc.cache[query] = ...] *)
  | AtUnlock (r : result sqlStmt)   (* result set, the deferred [Unlock] pending *)
  | Done (r : result sqlStmt).      (* returned [r] *)

Record thread : Type :=
  { t_ctx : Context;
    t_query : string;
    t_pc : pc }.

(** The cacher shared by the callers.  [holder] is the mutex: [None]
    when it is free, the index of the caller that locked it otherwise. *)
Record config : Type :=
  { c_sc : stmtCacher;
    c_holder : option nat;
    c_world : world;
    c_threads : list thread }.

Definition move (c : config) (i : nat) (t : thread) (p : pc)
    (sc : stmtCacher) (holder : option nat) (w : world) : config :=
  {| c_sc := sc; c_holder := holder; c_world := w;
     c_threads :=
       <[i := {| t_ctx := t_ctx t; t_query := t_query t; t_pc := p |}]> (c_threads c) |}.

(** Caller [i] runs up to its next point.  A caller at [AtLock] waits
    while the mutex is held; a caller that returned stays put. *)
Definition step (i : nat) (c : config) : config :=
  match c_threads c !! i with
  | None => c
  | Some t =>
      match t_pc t with
      | AtLock =>
          match c_holder c with
          | None => move c i t AtLookup (c_sc c) (Some i) (c_world c)
          | Some _ => c
          end
      | AtLookup =>
          match cache (c_sc c) !! t_query t with
          | Some s =>
              let '(n, w) := time_Now (c_world c) in
              move c i t (AtUnlock (Ok (stmt s)))
                   (with_cache (c_sc c)
                      (<[t_query t := {| stmt := stmt s; lastUse := n |}]> (cache (c_sc c))))
                   (c_holder c) w
          | None => move c i t AtPrepare (c_sc c) (c_holder c) (c_world c)
          end
      | AtPrepare =>
          let '(r, w) := call (EvPrepareContext (t_ctx t) (t_query t))
                              (PrepareContext (prep (c_sc c)) (t_ctx t) (t_query t))
                              (c_world c) in
          match r with
          | Err e => move c i t (AtUnlock (Err e)) (c_sc c) (c_holder c) w
          | Ok st => move c i t (AtStore st) (c_sc c) (c_holder c) w
          end
      | AtStore st =>
          let '(n, w) := time_Now (c_world c) in
          move c i t (AtUnlock (Ok st))
               (with_cache (c_sc c)
                  (<[t_query t := {| stmt := st; lastUse := n |}]> (cache (c_sc c))))
               (c_holder c) w
      | AtUnlock r => move c i t (Done r) (c_sc c) None (c_world c)
      | Done _ => c
      end
  end.

(** A schedule interleaves steps of the callers with the passing of
    time. *)
Inductive action : Type :=
  | Run (i : nat)
  | Elapse (d : N).

Definition act (a : action) (c : config) : config :=
  match a with
  | Run i => step i c
  | Elapse d =>
      {| c_sc := c_sc c; c_holder := c_holder c;
         c_world := elapse d (c_world c); c_threads := c_threads c |}
  end.

Definition run (sched : list action) (c : config) : config :=
  foldl (fun c a => act a c) c sched.

Definition caller (query : string) (ctx : Context) : thread :=
  {| t_ctx := ctx; t_query := query; t_pc := AtLock |}.

(** All callers about to enter [PrepareContext] with the same text. *)
Definition start (sc : stmtCacher) (w : world) (query : string) (ctxs : list Context)
  : config :=
  {| c_sc := sc; c_holder := None; c_world := w;
     c_threads := caller query <$> ctxs |}.

Definition returned (t : thread) : option (result sqlStmt) :=
  match t_pc t with Done r => Some r | _ => None end.

Definition all_returned (c : config) : Prop :=
  Forall (fun t => is_Some (returned t)) (c_threads c).

Definition holds_lock (p : pc) : bool :=
  match p with
  | AtLookup | AtPrepare | AtStore _ | AtUnlock _ => true
  | AtLock | Done _ => false
  end.

(** An upper bound on the steps a caller still has to take. *)
Definition steps_left (p : pc) : nat :=
  match p with
  | AtLock => 5 | AtLookup => 4 | AtPrepare => 3
  | AtStore _ => 2 | AtUnlock _ => 1 | Done _ => 0
  end.

Definition work_left (c : config) : nat :=
  sum_list (steps_left ∘ t_pc <$> c_threads c).

(** Whether caller [i] can move. *)
Definition enabled (i : nat) (c : config) : bool :=
  match c_threads c !! i with
  | None => false
  | Some t =>
      match t_pc t with
      | AtLock => bool_decide (c_holder c = None)
      | Done _ => false
      | _ => true
      end
  end.

(** *** The invariant of concurrent callers

    Callers of [PrepareContext] that all ask for the text [Q], which the
    cacher does not hold at first and which the preparer prepares as
    [st].  The run goes through three phases: nobody has reached the
    preparer; caller [j] has prepared and not stored yet; the cacher holds
    the entry. *)
Inductive phase : Type :=
  | Fresh
  | Storing (j : nat) (ctx : Context)
  | Cached (ctx : Context).

Definition pc_in_phase (st : sqlStmt) (ph : phase) (k : nat) (p : pc) : Prop :=
  match ph with
  | Fresh => p = AtLock \/ p = AtLookup \/ p = AtPrepare
  | Storing j _ => if decide (k = j) then p = AtStore st else p = AtLock
  | Cached _ => p = AtLock \/ p = AtLookup \/ p = AtUnlock (Ok st) \/ p = Done (Ok st)
  end.

Definition config_in_phase (w0 : world) (Q : string) (ctxs : list Context)
    (st : sqlStmt) (ph : phase) (c : config) : Prop :=
  match ph with
  | Fresh =>
      trace (c_world c) = trace w0 /\ cache (c_sc c) !! Q = None
  | Storing j ctx =>
      ctx ∈ ctxs /\ trace (c_world c) = trace w0 ++ [EvPrepareContext ctx Q] /\
      cache (c_sc c) !! Q = None /\ c_holder c = Some j
  | Cached ctx =>
      ctx ∈ ctxs /\ trace (c_world c) = trace w0 ++ [EvPrepareContext ctx Q] /\
      stmt <$> cache (c_sc c) !! Q = Some st
  end.

Definition thread_ok (Q : string) (ctxs : list Context) (st : sqlStmt)
    (ph : phase) (holder : option nat) (k : nat) (t : thread) : Prop :=
  t_query t = Q /\ t_ctx t ∈ ctxs /\
  (holds_lock (t_pc t) = true <-> holder = Some k) /\
  pc_in_phase st ph k (t_pc t).

Definition inv (sc0 : stmtCacher) (w0 : world) (Q : string) (ctxs : list Context)
    (st : sqlStmt) (c : config) : Prop :=
  exists ph,
    prep (c_sc c) = prep sc0 /\
    length (c_threads c) = length ctxs /\
    (forall j, c_holder c = Some j -> is_Some (c_threads c !! j)) /\
    config_in_phase w0 Q ctxs st ph c /\
    forall k t, c_threads c !! k = Some t -> thread_ok Q ctxs st ph (c_holder c) k t.

(** *** Abbreviations for the statements below *)

(** The test of the janitor: the idle time of the entry exceeds the
    maximal age. *)
Definition expired (maxAge n : Z) (v : savedStmt) : Prop :=
  maxAge < time_Sub n (lastUse v).

#[global] Instance expired_dec maxAge n v : Decision (expired maxAge n v).
Proof. unfold expired. apply _. Defined.

(** The entries a range over [order] evicts, and the calls it makes. *)
Definition evicted (maxAge n : Z) (order : list (string * savedStmt))
  : list (string * savedStmt) :=
  filter (fun kv => expired maxAge n kv.2) order.

Definition close_calls (l : list (string * savedStmt)) : history :=
  (fun kv => EvStmtClose (Stmt_id (stmt kv.2))) <$> l.

Definition delete_keys (l : list (string * savedStmt)) (c : gmap string savedStmt)
  : gmap string savedStmt :=
  foldl (fun c kv => delete kv.1 c) c l.

(** The entries a tick during which time passes evicts, and the time at its end. *)
Fixpoint evicted_timed (maxAge n : Z) (order : list (N * (string * savedStmt)))
  : list (string * savedStmt) :=
  match order with
  | [] => []
  | (d, kv) :: rest =>
      if decide (expired maxAge (n + Z.of_N d) kv.2)
      then kv :: evicted_timed maxAge (n + Z.of_N d) rest
      else evicted_timed maxAge (n + Z.of_N d) rest
  end.

Definition end_of_tick (n : Z) (order : list (N * (string * savedStmt))) : Z :=
  foldl (fun n dkv => n + Z.of_N dkv.1) n order.

(** The cacher with the entry of [query] set to [st], last used at [t]. *)
Definition touch (query : string) (st : sqlStmt) (t : Z) (sc : stmtCacher) : stmtCacher :=
  with_cache sc (<[query := {| stmt := st; lastUse := t |}]> (cache sc)).

(** The world after one more outside call. *)
Definition after_call (e : event) (w : world) : world :=
  {| now := now w; trace := trace w ++ [e] |}.

(** ** Sample objects *)

Definition w0 : world := {| now := 0; trace := [] |}.

Definition oneRow : sqlResult := {| LastInsertId := 0; RowsAffected := 1 |}.

Definition sampleExecer : Execer := {| Exec := fun _ _ _ => Ok oneRow |}.
Definition sampleExecerContext : ExecerContext :=
  {| ExecContext := fun _ _ _ _ => Ok oneRow |}.
Definition sampleQueryer : Queryer := {| Query := fun _ _ _ => Ok (rowsCustom 1) |}.
Definition sampleQueryerContext : QueryerContext :=
  {| QueryContext := fun _ _ _ _ => Ok (rowsCustom 1) |}.
Definition sampleQueryRower : QueryRower :=
  {| QueryRow := fun _ _ _ => driverRow None |}.
Definition sampleQueryRowerContext : QueryRowerContext :=
  {| QueryRowContext := fun _ _ _ _ => driverRow None |}.

(** A connection pool and a transaction of database/sql. *)
Definition sampleSqlDB : sqlDB :=
  {| DB_Exec := fun _ _ _ => Ok oneRow;
     DB_ExecContext := fun _ _ _ _ => Ok oneRow;
     DB_Query := fun _ _ _ => Ok (mkSqlRows 1);
     DB_QueryContext := fun _ _ _ _ => Ok (mkSqlRows 1);
     DB_QueryRow := fun _ _ _ => mkSqlRow None;
     DB_QueryRowContext := fun _ _ _ _ => mkSqlRow None |}.

Definition sampleSqlTx : sqlTx :=
  {| Tx_Exec := fun _ _ _ => Ok oneRow;
     Tx_ExecContext := fun _ _ _ _ => Ok oneRow;
     Tx_Query := fun _ _ _ => Ok (mkSqlRows 2);
     Tx_QueryContext := fun _ _ _ _ => Ok (mkSqlRows 2);
     Tx_QueryRow := fun _ _ _ => mkSqlRow None;
     Tx_QueryRowContext := fun _ _ _ _ => mkSqlRow None |}.

(** A handle with the base contract only. *)
Definition execOnly : customHandle :=
  {| c_Execer := sampleExecer; c_ExecerContext := sampleExecerContext;
     c_Queryer := None; c_QueryerContext := None;
     c_QueryRower := None; c_QueryRowerContext := None |}.

(** A handle with the base contract and the two single-row queries. *)
Definition execAndQueryRow : customHandle :=
  {| c_Execer := sampleExecer; c_ExecerContext := sampleExecerContext;
     c_Queryer := None; c_QueryerContext := None;
     c_QueryRower := Some sampleQueryRower;
     c_QueryRowerContext := Some sampleQueryRowerContext |}.

(** A handle with the whole [Runner] method set. *)
Definition fullHandle : customHandle :=
  {| c_Execer := sampleExecer; c_ExecerContext := sampleExecerContext;
     c_Queryer := Some sampleQueryer; c_QueryerContext := Some sampleQueryerContext;
     c_QueryRower := Some sampleQueryRower;
     c_QueryRowerContext := Some sampleQueryRowerContext |}.

Definition sampleStmt (id : positive) : sqlStmt :=
  {| Stmt_id := id;
     Stmt_ExecContext := fun _ _ _ => Ok oneRow;
     Stmt_QueryContext := fun _ _ _ => Ok (mkSqlRows id);
     Stmt_QueryRowContext := fun _ _ _ => mkSqlRow None;
     Stmt_Close := fun _ => None |}.

(** A preparer that hands out a new statement at every call. *)
Definition freshPreparer : Preparer :=
  {| Prepare := fun _ h => Ok (sampleStmt (Pos.of_succ_nat (length h)));
     PrepareContext := fun _ _ h => Ok (sampleStmt (Pos.of_succ_nat (length h))) |}.

(** A preparer whose database rejects every text. *)
Definition failingPreparer : Preparer :=
  {| Prepare := fun _ _ => Err (errorString "syntax error");
     PrepareContext := fun _ _ _ => Err (errorString "syntax error") |}.

(** A cacher with one entry last used at time 0 and one last used
    after four hours, and the world one hour later. *)
Definition twoEntries : stmtCacher :=
  {| prep := freshPreparer;
     cache := <["SELECT old" := {| stmt := sampleStmt 1; lastUse := 0 |}]>
              (<["SELECT new" := {| stmt := sampleStmt 2; lastUse := 4 * time_Hour |}]> ∅) |}.

Definition fiveHours : world := {| now := 5 * time_Hour; trace := [] |}.

(** A day of one text: prepared at 0h and again at 1h, looked at by the
    janitor at 4h, prepared at 5h, looked at by the janitor at 8h (the
    ticker fires every [maxAge]), then, in [afterEviction], at 12h, and
    prepared once more. *)
Definition oneDay : list op :=
  [OpPrepareContext Background "SELECT 1"; OpElapse 3600000000000;
   OpPrepareContext Background "SELECT 1"; OpElapse 10800000000000;
   OpTick maxAge; OpElapse 3600000000000;
   OpPrepareContext Background "SELECT 1"; OpElapse 10800000000000;
   OpTick maxAge].

Definition afterEviction : list op :=
  oneDay ++ [OpElapse 14400000000000; OpTick maxAge;
             OpPrepareContext Background "SELECT 1"].

(** Two callers, a schedule that interleaves them, and one that runs
    them one after the other (four steps each, for a failed prepare). *)
Definition twoCallers : list Context := [Background; WithCancel 1].

Definition interleaved : list action :=
  [Run 1%nat; Run 0%nat; Run 1%nat; Run 0%nat; Elapse 5; Run 1%nat; Run 1%nat;
   Run 0%nat; Run 1%nat; Run 0%nat; Run 0%nat; Run 0%nat].

Definition oneAfterTheOther : list action :=
  replicate 4 (Run 0%nat) ++ replicate 4 (Run 1%nat).

#[global] Instance all_returned_dec c : Decision (all_returned c).
Proof. unfold all_returned. apply _. Defined.

(** ** The values builder *)

(** A value of a row, by its dynamic type as the type switch of [ToSql]
    tells it: an [expr] (a struct with the fields [sql] and [args]), a
    [Sqlizer], or anything else. *)
Inductive rowValue : Type :=
  | ofExpr (sql : string) (args : list value)
  | ofSqlizer (s : Sqlizer)
  | ofOther (v : value).

(** [ReplacePlaceholders] of the builder's placeholder format is not
    among the sources: it is a parameter of the builder, any function
    from the text to a text and an error. *)
Record ValuesBuilder : Type :=
  { placeholderFormat : string -> string * option error;
    values : list (list rowValue) }.

Definition ValuesBuilder_Values (vb : ValuesBuilder) (row : list rowValue) : ValuesBuilder :=
  {| placeholderFormat := placeholderFormat vb; values := values vb ++ [row] |}.

(** [strings.Join]. *)
Definition strings_Join (elems : list string) (sep : string) : string :=
  String.concat sep elems.

(** The loop over one row: the strings of its values and the arguments
    so far, or the arguments so far and the error of the first [Sqlizer]
    of the row that fails. *)
Fixpoint ToSql_row (row : list rowValue) (args : list value)
  : (list string * list value) + (list value * error) :=
  match row with
  | [] => inl ([], args)
  | val :: rest =>
      match val with
      | ofExpr sql eargs =>
          match ToSql_row rest (args ++ eargs) with
          | inl (valueStrings, args') => inl (sql :: valueStrings, args')
          | inr failed => inr failed
          end
      | ofSqlizer typedVal =>
          let '(valSql, valArgs, err) := ToSql typedVal in
          match err with
          | Some e => inr (args, e)
          | None =>
              match ToSql_row rest (args ++ valArgs) with
              | inl (valueStrings, args') => inl (valSql :: valueStrings, args')
              | inr failed => inr failed
              end
          end
      | ofOther v =>
          match ToSql_row rest (args ++ [v]) with
          | inl (valueStrings, args') => inl ("?" :: valueStrings, args')
          | inr failed => inr failed
          end
      end
  end.

(** The loop over the rows. *)
Fixpoint ToSql_rows (rows : list (list rowValue)) (args : list value)
  : (list string * list value) + (list value * error) :=
  match rows with
  | [] => inl ([], args)
  | row :: rest =>
      match ToSql_row row args with
      | inr failed => inr failed
      | inl (valueStrings, args') =>
          match ToSql_rows rest args' with
          | inl (valuesStrings, args'') =>
              inl (("(" +:+ strings_Join valueStrings "," +:+ ")") :: valuesStrings, args'')
          | inr failed => inr failed
          end
      end
  end.

Definition ValuesBuilder_ToSql (vb : ValuesBuilder) : string * list value * option error :=
  match values vb with
  | [] => (EmptyString, [], Some (errorString "values list is empty"))
  | _ :: _ =>
      match ToSql_rows (values vb) [] with
      | inr (args, e) => (EmptyString, args, Some e)
      | inl (valuesStrings, args) =>
          let '(sqlStr, err) :=
            placeholderFormat vb ("VALUES " +:+ strings_Join valuesStrings ",") in
          (sqlStr, args, err)
      end
  end.

(** A builder as a [Sqlizer]. *)
Definition ValuesBuilder_Sqlizer (vb : ValuesBuilder) : Sqlizer :=
  {| ToSql := ValuesBuilder_ToSql vb |}.

(** What one value contributes: its text and its arguments. *)
Definition value_sql (val : rowValue) : string :=
  match val with
  | ofExpr sql _ => sql
  | ofSqlizer s => (ToSql s).1.1
  | ofOther _ => "?"
  end.

Definition value_args (val : rowValue) : list value :=
  match val with
  | ofExpr _ eargs => eargs
  | ofSqlizer s => (ToSql s).1.2
  | ofOther v => [v]
  end.

Definition value_err (val : rowValue) : option error :=
  match val with
  | ofSqlizer s => (ToSql s).2
  | _ => None
  end.

Definition row_sql (row : list rowValue) : string :=
  "(" +:+ strings_Join (value_sql <$> row) "," +:+ ")".

Definition values_sql (rows : list (list rowValue)) : string :=
  "VALUES " +:+ strings_Join (row_sql <$> rows) ",".

(** The question-mark format, which leaves the text as it is. *)
Definition questionFormat (sql : string) : string * option error := (sql, None).

Definition twoRows : ValuesBuilder :=
  ValuesBuilder_Values
    (ValuesBuilder_Values {| placeholderFormat := questionFormat; values := [] |}
       [ofOther (VInt 1); ofExpr "NOW()" []])
    [ofOther (VInt 2); ofSqlizer {| ToSql := ("?+?", [VInt 3; VInt 4], None) |}].

Definition brokenRow : ValuesBuilder :=
  ValuesBuilder_Values twoRows [ofOther (VInt 5); ofSqlizer emptyValuesBuilder; ofOther (VInt 6)].

(** *** Operations by kind *)

(** An operation of the cacher that is not a janitor tick. *)
Definition is_tick (o : op) : bool :=
  match o with OpTick _ => true | _ => false end.

(** The text an operation of the cacher asks for. *)
Definition op_text (o : op) : option string :=
  match o with
  | OpPrepareContext _ q | OpExecContext _ q _
  | OpQueryContext _ q _ | OpQueryRowContext _ q _ => Some q
  | OpTick _ | OpElapse _ => None
  end.

(** A preparer that prepares every text, whenever it is asked. *)
Definition always_prepares (p : Preparer) : Prop :=
  forall ctx q h, exists st, PrepareContext p ctx q h = Ok st.

Definition someOps : list op :=
  [OpPrepareContext Background "SELECT a"; OpExecContext (WithCancel 1) "SELECT a" [VInt 1];
   OpElapse 7; OpQueryContext Background "SELECT b" [];
   OpQueryRowContext Background "SELECT a" [VInt 2];
   OpPrepareContext Background "SELECT b"].

(** *** Callers of any texts, and calls made one after another *)

(** Callers about to enter [PrepareContext], each with its context and
    its text. *)
Definition start_with (sc : stmtCacher) (w : world) (calls : list (Context * string))
  : config :=
  {| c_sc := sc; c_holder := None; c_world := w;
     c_threads := (fun cq => caller cq.2 cq.1) <$> calls |}.

Definition thread_call (t : thread) : Context * string := (t_ctx t, t_query t).

(** A run without concurrency: the call of caller [i] made as a whole,
    or time passing.  The log keeps what each call returned. *)
Inductive seq_item : Type :=
  | SeqCall (i : nat)
  | SeqElapse (d : N).

Definition seq_state : Type := stmtCacher * world * list (nat * result sqlStmt).

Definition run_seq_item (calls : list (Context * string)) (it : seq_item) (st : seq_state)
  : seq_state :=
  let '(sc, w, log) := st in
  match it with
  | SeqElapse d => (sc, elapse d w, log)
  | SeqCall i =>
      match calls !! i with
      | None => st
      | Some (ctx, q) =>
          let '(r, sc', w') := stmtCacher_PrepareContext ctx q sc w in
          (sc', w', log ++ [(i, r)])
      end
  end.

Definition run_seq (calls : list (Context * string)) (items : list seq_item) (st : seq_state)
  : seq_state :=
  foldl (fun st it => run_seq_item calls it st) st items.

(** Where a caller stands, against the mutex and the log of the calls
    that are complete. *)
Definition lin_thread (log : list (nat * result sqlStmt)) (holder : option nat)
    (k : nat) (p : pc) : Prop :=
  match p with
  | AtLock => holder <> Some k /\ k ∉ log.*1
  | AtLookup | AtPrepare | AtStore _ => holder = Some k /\ k ∉ log.*1
  | AtUnlock r => holder = Some k /\ (k, r) ∈ log
  | Done r => holder <> Some k /\ (k, r) ∈ log
  end.

(** The cacher and the world of the concurrent run against those of
    the run without concurrency: the same, but for a prepare call made
    and not stored yet. *)
Definition lin_state (sc_s : stmtCacher) (w_s : world) (c : config) : Prop :=
  match c_holder c with
  | None => c_sc c = sc_s /\ c_world c = w_s
  | Some j =>
      match c_threads c !! j with
      | None => False
      | Some t =>
          match t_pc t with
          | AtLookup | AtUnlock _ => c_sc c = sc_s /\ c_world c = w_s
          | AtPrepare =>
              c_sc c = sc_s /\ c_world c = w_s /\ cache sc_s !! t_query t = None
          | AtStore st =>
              c_sc c = sc_s /\
              c_world c = after_call (EvPrepareContext (t_ctx t) (t_query t)) w_s /\
              cache sc_s !! t_query t = None /\
              PrepareContext (prep sc_s) (t_ctx t) (t_query t) (trace w_s) = Ok st
          | AtLock | Done _ => False
          end
      end
  end.

Definition lin_inv (sc0 : stmtCacher) (w0 : world) (calls : list (Context * string))
    (c : config) : Prop :=
  exists items sc_s w_s log,
    run_seq calls items (sc0, w0, []) = (sc_s, w_s, log) /\
    thread_call <$> c_threads c = calls /\
    NoDup log.*1 /\
    (forall k t, c_threads c !! k = Some t -> lin_thread log (c_holder c) k (t_pc t)) /\
    (forall k r, (k, r) ∈ log ->
       exists t, c_threads c !! k = Some t /\ (t_pc t = AtUnlock r \/ t_pc t = Done r)) /\
    lin_state sc_s w_s c.

Definition threeCalls : list (Context * string) :=
  [(Background, "SELECT a"); (WithCancel 1, "SELECT b"); (WithCancel 2, "SELECT a")].

Definition threeInterleaved : list action :=
  [Run 2%nat; Run 0%nat; Run 2%nat; Run 1%nat; Run 2%nat; Elapse 3; Run 2%nat; Run 2%nat;
   Run 1%nat; Run 0%nat; Run 1%nat; Run 1%nat; Run 0%nat; Run 1%nat; Run 1%nat;
   Run 0%nat; Run 0%nat; Run 0%nat].

(** * Properties *)

(** ** Execution helpers *)

Section RenderFailure.
Variables (s : Sqlizer) (query : string) (args : list value) (e : error).
Hypothesis render_fails : ToSql s = (query, args, Some e).

Lemma ExecWith_render_error db w : ExecWith db s w = (Err e, w).
Proof. unfold ExecWith. by rewrite render_fails. Qed.

Lemma ExecWithContext_render_error ctx db w : ExecWithContext ctx db s w = (Err e, w).
Proof. unfold ExecWithContext. by rewrite render_fails. Qed.

Lemma QueryWith_render_error db w : QueryWith db s w = (Err e, w).
Proof. unfold QueryWith. by rewrite render_fails. Qed.

Lemma QueryWithContext_render_error ctx db w : QueryWithContext ctx db s w = (Err e, w).
Proof. unfold QueryWithContext. by rewrite render_fails. Qed.

(** The single-row helpers store the render error, after one call to
    the handle with what [ToSql] returned beside the error. *)
Lemma QueryRowWith_render_error db w :
  QueryRowWith db s w =
    (RowPtr (mkRow (QueryRow db query args (trace w)) (Some e)),
     {| now := now w; trace := trace w ++ [EvQueryRow query args] |}).
Proof. unfold QueryRowWith. by rewrite render_fails. Qed.

Lemma QueryRowWithContext_render_error ctx db w :
  QueryRowWithContext ctx db s w =
    (RowPtr (mkRow (QueryRowContext db ctx query args (trace w)) (Some e)),
     {| now := now w; trace := trace w ++ [EvQueryRowContext ctx query args] |}).
Proof. unfold QueryRowWithContext. by rewrite render_fails. Qed.
End RenderFailure.

(** C1 (the code departs from it). The claim: when [ToSql] fails, no
    helper calls the handle and the render error is what the caller gets.
    On a values builder without rows, [QueryRowWith] and
    [QueryRowWithContext] do call the handle, once, with the empty text,
    and wrap what it returns in a row that stores the render error.  The
    four other helpers return the render error and leave the history as
    it was. *)
Theorem QueryRowWith_reaches_handle_on_render_error :
  let e := errorString "values list is empty" in
  ToSql emptyValuesBuilder = (EmptyString, [], Some e) /\
  trace (QueryRowWith sampleQueryRower emptyValuesBuilder w0).2 = [EvQueryRow EmptyString []] /\
  trace (QueryRowWithContext Background sampleQueryRowerContext emptyValuesBuilder w0).2
    = [EvQueryRowContext Background EmptyString []] /\
  (QueryRowWith sampleQueryRower emptyValuesBuilder w0).1
    = RowPtr (mkRow (driverRow None) (Some e)) /\
  (QueryRowWithContext Background sampleQueryRowerContext emptyValuesBuilder w0).1
    = RowPtr (mkRow (driverRow None) (Some e)) /\
  ExecWith sampleExecer emptyValuesBuilder w0 = (Err e, w0) /\
  ExecWithContext Background sampleExecerContext emptyValuesBuilder w0 = (Err e, w0) /\
  QueryWith sampleQueryer emptyValuesBuilder w0 = (Err e, w0) /\
  QueryWithContext Background sampleQueryerContext emptyValuesBuilder w0 = (Err e, w0).
Proof. repeat split. Qed.

(** ** The guarded adapter *)

Lemma otherRunner_Query_delegates b queryer query args w :
  assertQueryer b = Some queryer ->
  otherRunner_Query b query args w = callQuery queryer query args w.
Proof. intros H. unfold otherRunner_Query. by rewrite H. Qed.

Lemma otherRunner_QueryContext_delegates b queryer ctx query args w :
  assertQueryerContext b = Some queryer ->
  otherRunner_QueryContext b ctx query args w = callQueryContext queryer ctx query args w.
Proof. intros H. unfold otherRunner_QueryContext. by rewrite H. Qed.

(** What the delegate of [QueryRow] receives: one argument, the slice. *)
Lemma otherRunner_QueryRow_delegates b queryRower query args w :
  assertQueryRower b = Some queryRower ->
  otherRunner_QueryRow b query args w = callQueryRow queryRower query [VSlice args] w.
Proof. intros H. unfold otherRunner_QueryRow. by rewrite H. Qed.

Lemma otherRunner_QueryRowContext_delegates b queryRower ctx query args w :
  assertQueryRowerContext b = Some queryRower ->
  otherRunner_QueryRowContext b ctx query args w
    = callQueryRowContext queryRower ctx query [VSlice args] w.
Proof. intros H. unfold otherRunner_QueryRowContext. by rewrite H. Qed.

(** C3 (the code departs from it). The claim: a present capability is
    called with the text and the argument list unchanged.  [Query] and
    [QueryContext] do that; [QueryRow] and [QueryRowContext] on a handle
    that has them, called with the one argument [1], hand the delegate
    the one-element list whose element is the slice [[1]]. *)
Theorem otherRunner_QueryRow_nests_args :
  let b := custom execAndQueryRow in
  assertQueryRower b = Some sampleQueryRower /\
  trace (otherRunner_QueryRow b "SELECT ?" [VInt 1] w0).2
    = [EvQueryRow "SELECT ?" [VSlice [VInt 1]]] /\
  trace (otherRunner_QueryRowContext b Background "SELECT ?" [VInt 1] w0).2
    = [EvQueryRowContext Background "SELECT ?" [VSlice [VInt 1]]] /\
  [VSlice [VInt 1]] <> [VInt 1] /\
  trace (otherRunner_Query (custom fullHandle) "SELECT ?" [VInt 1] w0).2
    = [EvQuery "SELECT ?" [VInt 1]] /\
  trace (otherRunner_QueryContext (custom fullHandle) Background "SELECT ?" [VInt 1] w0).2
    = [EvQueryContext Background "SELECT ?" [VInt 1]].
Proof. repeat split. discriminate. Qed.

Lemma adapter_errors_distinct : NoDup (ErrRunnerNotSet :: adapter_errors).
Proof. apply (bool_decide_unpack _). by vm_compute. Qed.

Lemma adapter_messages_distinct : NoDup (error_Error <$> adapter_errors).
Proof. apply (bool_decide_unpack _). by vm_compute. Qed.

(** C6. A handle that has only [Exec] and [ExecContext] is wrapped in
    the guarded adapter; on the runner [Query] returns
    [ErrRunnerNotQueryer], [QueryContext] returns
    [ErrRunnerNotQueryerContext], [QueryRow] returns a row that stores
    [ErrRunnerNotQueryRunner] and [QueryRowContext] one that stores
    [ErrRunnerNotQueryRunnerContext], none of them calling the handle;
    the four errors are pairwise distinct; [Exec] and [ExecContext] are
    the handle's own, so they return what the handle returns. *)
Theorem wrapRunner_exec_only (c : customHandle) :
  c_Queryer c = None -> c_QueryerContext c = None ->
  c_QueryRower c = None -> c_QueryRowerContext c = None ->
  let r := wrapRunner (custom c) in
  r = otherRunner (custom c) /\
  (forall query args w, Runner_Query r query args w = (Err ErrRunnerNotQueryer, w)) /\
  (forall ctx query args w,
      Runner_QueryContext r ctx query args w = (Err ErrRunnerNotQueryerContext, w)) /\
  (forall query args w, exists row,
      Runner_QueryRow r query args w = (RowPtr row, w) /\
      Row_err row = Some ErrRunnerNotQueryRunner) /\
  (forall ctx query args w, exists row,
      Runner_QueryRowContext r ctx query args w = (RowPtr row, w) /\
      Row_err row = Some ErrRunnerNotQueryRunnerContext) /\
  NoDup adapter_errors /\
  (forall query args w,
      Runner_Exec r query args w
      = (Exec (c_Execer c) query args (trace w),
         {| now := now w; trace := trace w ++ [EvExec query args] |})) /\
  (forall ctx query args w,
      Runner_ExecContext r ctx query args w
      = (ExecContext (c_ExecerContext c) ctx query args (trace w),
         {| now := now w; trace := trace w ++ [EvExecContext ctx query args] |})).
Proof.
  intros Hq Hqc Hqr Hqrc r.
  assert (Hr : r = otherRunner (custom c)).
  { subst r. unfold wrapRunner, assertRunner. cbn. by rewrite Hq. }
  rewrite Hr. split; [done |].
  split; [intros; cbn; unfold otherRunner_Query; cbn; by rewrite Hq |].
  split; [intros; cbn; unfold otherRunner_QueryContext; cbn; by rewrite Hqc |].
  split.
  { intros. eexists. cbn. unfold otherRunner_QueryRow. cbn. rewrite Hqr. done. }
  split.
  { intros. eexists. cbn. unfold otherRunner_QueryRowContext. cbn. rewrite Hqrc. done. }
  split; [pose proof adapter_errors_distinct as H; by inversion H |].
  split; done.
Qed.

Lemma wrapRunner_exec_only_witness :
  Runner_Query (wrapRunner (custom execOnly)) "SELECT 1" [] w0 = (Err ErrRunnerNotQueryer, w0)
  /\ Runner_Exec (wrapRunner (custom execOnly)) "DELETE FROM t" [VInt 7] w0
     = (Ok oneRow, {| now := 0; trace := [EvExec "DELETE FROM t" [VInt 7]] |}).
Proof.
  pose proof (wrapRunner_exec_only execOnly eq_refl eq_refl eq_refl eq_refl)
    as (_ & Hq & _ & _ & _ & _ & He & _).
  split; [apply Hq | apply He].
Defined.

(** ** [wrapRunner] *)

Lemma assertRunner_builtin b :
  is_Some (assertSqlDB b) \/ is_Some (assertSqlTx b) -> assertRunner b = None.
Proof. destruct b; cbn; intros [[? H]|[? H]]; done. Qed.

Lemma case_body_once b t t' r r' :
  case_body t b = Some r -> case_body t' b = Some r' -> t = t'.
Proof.
  destruct b as [db|tx|c], t, t'; cbn; try done;
    rewrite ?fmap_Some; intros (? & ? & ?) (? & ? & ?); done.
Qed.

(** Whatever the order of the cases, the switch returns the body of the
    one case that holds, and the default when none holds. *)
Lemma typeSwitch_runner cases b :
  (typeSwitch cases b).2 =
    match list_find (fun t => is_Some (case_body t b)) cases with
    | Some (_, t) => default (otherRunner b) (case_body t b)
    | None => otherRunner b
    end.
Proof.
  induction cases as [|t rest IH]; [done |].
  cbn [typeSwitch list_find]. case_decide as Ht.
  - destruct Ht as [r Hr]. by rewrite Hr.
  - apply eq_None_not_Some in Ht. rewrite Ht.
    destruct (typeSwitch rest b) as [tested r] eqn:E. cbn in *. rewrite IH.
    by destruct (list_find _ rest) as [[? ?]|].
Qed.

Lemma typeSwitch_Permutation cases cases' b :
  cases ≡ₚ cases' -> (typeSwitch cases b).2 = (typeSwitch cases' b).2.
Proof.
  intros HP. rewrite !typeSwitch_runner.
  destruct (list_find _ cases) as [[i t]|] eqn:E;
    destruct (list_find _ cases') as [[i' t']|] eqn:E'; [| | | done].
  - apply list_find_Some in E as (_ & [r Hr] & _).
    apply list_find_Some in E' as (_ & [r' Hr'] & _).
    by rewrite (case_body_once _ _ _ _ _ Hr Hr').
  - apply list_find_Some in E as (Hi & Ht & _).
    rewrite list_find_None, Forall_forall in E'.
    destruct (E' t); [| done]. rewrite <- HP. by eapply list_elem_of_lookup_2.
  - apply list_find_Some in E' as (Hi & Ht & _).
    rewrite list_find_None, Forall_forall in E.
    destruct (E t'); [| done]. rewrite HP. by eapply list_elem_of_lookup_2.
Qed.

Lemma wrapRunner_switch_runner b : (wrapRunner_switch b).2 = wrapRunner b.
Proof.
  destruct b as [db|tx|c]; [done | done |].
  unfold wrapRunner_switch, wrapRunner. cbn.
  by destruct (assertRunner (custom c)).
Qed.

(** C8 (as amended). [wrapRunner] tests the handle's type in this order:
    [*sql.DB], [*sql.Tx], then the [Runner] contract; the first that
    holds decides.  A [*sql.DB] gets [dbRunner] after one test, a
    [*sql.Tx] gets [txRunner] after two, and any other handle goes
    through all three: with the whole [Runner] method set it is returned
    as it is (the runner's methods are the handle's own), with a method
    missing it is wrapped in the guarded adapter.  No handle passes two
    of the tests, so the cases in any other order, the order of the
    design rule included, would return the same runner. *)
Theorem wrapRunner_switch_order :
  (forall b, (wrapRunner_switch b).2 = wrapRunner b) /\
  (forall db, wrapRunner_switch (ptrSqlDB db) = ([typeSqlDB], dbRunner db)) /\
  (forall tx, wrapRunner_switch (ptrSqlTx tx) = ([typeSqlDB; typeSqlTx], txRunner tx)) /\
  (forall c q qc qr qrc,
      c_Queryer c = Some q -> c_QueryerContext c = Some qc ->
      c_QueryRower c = Some qr -> c_QueryRowerContext c = Some qrc ->
      wrapRunner_switch (custom c)
      = ([typeSqlDB; typeSqlTx; typeRunner],
         itself (custom c)
           {| R_Execer := c_Execer c; R_ExecerContext := c_ExecerContext c;
              R_Queryer := q; R_QueryerContext := qc;
              R_QueryRower := qr; R_QueryRowerContext := qrc |})) /\
  (forall c,
      c_Queryer c = None \/ c_QueryerContext c = None \/
      c_QueryRower c = None \/ c_QueryRowerContext c = None ->
      wrapRunner_switch (custom c)
      = ([typeSqlDB; typeSqlTx; typeRunner], otherRunner (custom c))) /\
  (forall b cases, cases ≡ₚ wrapRunner_cases -> (typeSwitch cases b).2 = wrapRunner b) /\
  (forall b, (typeSwitch designRule_cases b).2 = wrapRunner b).
Proof.
  split; [apply wrapRunner_switch_runner |].
  split; [done |]. split; [done |].
  split.
  { intros c q qc qr qrc Hq Hqc Hqr Hqrc.
    unfold wrapRunner_switch. cbn. unfold assertRunner. cbn.
    by rewrite Hq, Hqc, Hqr, Hqrc. }
  split.
  { intros c H.
    assert (Hr : assertRunner (custom c) = None).
    { unfold assertRunner. cbn.
      destruct (c_Queryer c), (c_QueryerContext c), (c_QueryRower c), (c_QueryRowerContext c);
        try done; naive_solver. }
    unfold wrapRunner_switch. cbn. by rewrite Hr. }
  split.
  - intros b cases HP.
    rewrite (typeSwitch_Permutation _ _ b HP). apply wrapRunner_switch_runner.
  - intros b. rewrite (typeSwitch_Permutation designRule_cases wrapRunner_cases b).
    + apply wrapRunner_switch_runner.
    + exact (Permutation_app_comm [typeRunner] [typeSqlDB; typeSqlTx]).
Qed.

Lemma wrapRunner_switch_order_witness :
  wrapRunner_switch (ptrSqlDB sampleSqlDB) = ([typeSqlDB], dbRunner sampleSqlDB) /\
  wrapRunner_switch (ptrSqlTx sampleSqlTx) = ([typeSqlDB; typeSqlTx], txRunner sampleSqlTx) /\
  (wrapRunner_switch (custom fullHandle)).1 = [typeSqlDB; typeSqlTx; typeRunner] /\
  (exists m, wrapRunner (custom fullHandle) = itself (custom fullHandle) m /\
             R_QueryRower m = sampleQueryRower) /\
  wrapRunner_switch (custom execAndQueryRow)
    = ([typeSqlDB; typeSqlTx; typeRunner], otherRunner (custom execAndQueryRow)) /\
  (typeSwitch [typeSqlTx; typeRunner; typeSqlDB] (ptrSqlDB sampleSqlDB)).2
    = dbRunner sampleSqlDB.
Proof.
  destruct wrapRunner_switch_order as (Hr & Hdb & Htx & Hfull & Hother & Hperm & _).
  pose proof (Hfull fullHandle _ _ _ _ eq_refl eq_refl eq_refl eq_refl) as Hf.
  split; [apply Hdb |]. split; [apply Htx |].
  split; [by rewrite Hf |].
  split.
  { eexists. rewrite <- Hr, Hf. split; reflexivity. }
  split; [apply Hother; by left |].
  rewrite (Hperm (ptrSqlDB sampleSqlDB) [typeSqlTx; typeRunner; typeSqlDB]).
  - reflexivity.
  - exact (Permutation_app_comm [typeSqlTx; typeRunner] [typeSqlDB]).
Defined.

(** C8 (as the claim has it) fails: on a handle with the whole [Runner]
    method set the two built-in types are tested before [Runner] is, so
    [Runner] is not the first test made. *)
Lemma wrapRunner_tests_builtins_first :
  is_Some (assertRunner (custom fullHandle)) /\
  (wrapRunner_switch (custom fullHandle)).1 = [typeSqlDB; typeSqlTx; typeRunner] /\
  head (wrapRunner_switch (custom fullHandle)).1 <> Some typeRunner /\
  ~ (forall b, is_Some (assertRunner b) ->
       head (wrapRunner_switch b).1 = Some typeRunner).
Proof.
  split; [by eexists |]. split; [reflexivity |]. split; [discriminate |].
  intros H. specialize (H (custom fullHandle)).
  discriminate H. by eexists.
Qed.

(** ** The statement cacher: one call *)

Lemma PrepareContext_hit ctx query sc w s :
  cache sc !! query = Some s ->
  stmtCacher_PrepareContext ctx query sc w = (Ok (stmt s), touch query (stmt s) (now w) sc, w).
Proof. intros H. unfold stmtCacher_PrepareContext. by rewrite H. Qed.

Lemma PrepareContext_miss_ok ctx query sc w st :
  cache sc !! query = None ->
  PrepareContext (prep sc) ctx query (trace w) = Ok st ->
  stmtCacher_PrepareContext ctx query sc w
  = (Ok st, touch query st (now w) sc, after_call (EvPrepareContext ctx query) w).
Proof.
  intros H Hp. unfold stmtCacher_PrepareContext. rewrite H.
  cbv [mbind M_bind bind call]. by rewrite Hp.
Qed.

Lemma PrepareContext_miss_err ctx query sc w e :
  cache sc !! query = None ->
  PrepareContext (prep sc) ctx query (trace w) = Err e ->
  stmtCacher_PrepareContext ctx query sc w
  = (Err e, sc, after_call (EvPrepareContext ctx query) w).
Proof.
  intros H Hp. unfold stmtCacher_PrepareContext. rewrite H.
  cbv [mbind M_bind bind call]. by rewrite Hp.
Qed.

(** The three ways a call can go. *)
Lemma PrepareContext_cases ctx query sc w :
  (exists s, cache sc !! query = Some s /\
     stmtCacher_PrepareContext ctx query sc w
     = (Ok (stmt s), touch query (stmt s) (now w) sc, w)) \/
  (exists st, cache sc !! query = None /\
     stmtCacher_PrepareContext ctx query sc w
     = (Ok st, touch query st (now w) sc, after_call (EvPrepareContext ctx query) w)) \/
  (exists e, cache sc !! query = None /\
     stmtCacher_PrepareContext ctx query sc w
     = (Err e, sc, after_call (EvPrepareContext ctx query) w)).
Proof.
  destruct (cache sc !! query) as [s|] eqn:H.
  - left. eauto using PrepareContext_hit.
  - destruct (PrepareContext (prep sc) ctx query (trace w)) as [st|e] eqn:Hp.
    + right; left. eauto using PrepareContext_miss_ok.
    + right; right. eauto using PrepareContext_miss_err.
Qed.

(** C4. When the text is not cached and the preparer fails, the call
    returns the preparer's error and the cacher is the one it was: no
    entry is added and none is changed. *)
Theorem PrepareContext_error_keeps_cache ctx query sc w e :
  cache sc !! query = None ->
  PrepareContext (prep sc) ctx query (trace w) = Err e ->
  forall r sc' w',
    stmtCacher_PrepareContext ctx query sc w = (r, sc', w') ->
    r = Err e /\ sc' = sc /\ cache sc' = cache sc /\ cache sc' !! query = None.
Proof.
  intros H Hp r sc' w' Hrun.
  rewrite (PrepareContext_miss_err _ _ _ _ _ H Hp) in Hrun.
  by simplify_eq.
Qed.

Lemma PrepareContext_error_keeps_cache_witness :
  let sc := NewStmtCacher failingPreparer in
  exists w', stmtCacher_PrepareContext Background "SELEC 1" sc w0
             = (Err (errorString "syntax error"), sc, w')
             /\ cache sc = ∅.
Proof.
  intros sc.
  destruct (stmtCacher_PrepareContext Background "SELEC 1" sc w0) as [[r sc'] w'] eqn:E.
  destruct (PrepareContext_error_keeps_cache Background "SELEC 1" sc w0
              (errorString "syntax error") eq_refl eq_refl r sc' w' E) as (-> & -> & _ & _).
  exists w'. split; reflexivity.
Defined.

(** C10. Each operation without a context is its counterpart with a
    context, called with [context.Background()]: same result, same
    cacher afterwards, same calls to the outside. *)
Theorem stmtCacher_background query args sc w :
  stmtCacher_Prepare query sc w = stmtCacher_PrepareContext Background query sc w /\
  stmtCacher_Exec query args sc w = stmtCacher_ExecContext Background query args sc w /\
  stmtCacher_Query query args sc w = stmtCacher_QueryContext Background query args sc w /\
  stmtCacher_QueryRow query args sc w
    = stmtCacher_QueryRowContext Background query args sc w.
Proof. repeat split. Qed.

(** ** Single-row results *)

Lemma QueryRowContext_unfold ctx query args sc w :
  stmtCacher_QueryRowContext ctx query args sc w =
    let '(r, sc', w') := stmtCacher_PrepareContext ctx query sc w in
    match r with
    | Err e => (RowPtr (mkRow nilRowScanner (Some e)), sc', w')
    | Ok st =>
        (rowOfSql (Stmt_QueryRowContext st ctx args (trace w')), sc',
         after_call (EvStmtQueryRowContext (Stmt_id st) ctx args) w')
    end.
Proof.
  unfold stmtCacher_QueryRowContext. cbv [mbind M_bind bind].
  destruct (stmtCacher_PrepareContext ctx query sc w) as [[[st|e] sc'] w']; done.
Qed.

Lemma rowOfSql_scan r : exists e, RowScanner_Scan (rowOfSql r) = Returned e.
Proof. destruct r as [e]. by exists e. Qed.

(** What the single-row helpers return: a [Row] holding the row the
    handle answered with and the error [ToSql] returned. *)
Lemma QueryRowWith_row db s w :
  (QueryRowWith db s w).1
  = RowPtr (mkRow (QueryRow db (ToSql s).1.1 (ToSql s).1.2 (trace w)) (ToSql s).2).
Proof. unfold QueryRowWith. by destruct (ToSql s) as [[q a] err]. Qed.

Lemma QueryRowWithContext_row ctx db s w :
  (QueryRowWithContext ctx db s w).1
  = RowPtr (mkRow (QueryRowContext db ctx (ToSql s).1.1 (ToSql s).1.2 (trace w)) (ToSql s).2).
Proof. unfold QueryRowWithContext. by destruct (ToSql s) as [[q a] err]. Qed.

(** What the cacher's single-row query returns: a [Row] storing the
    error of the preparation, or the row of the statement. *)
Lemma QueryRowContext_row ctx query args sc w :
  (stmtCacher_QueryRowContext ctx query args sc w).1.1 =
    match (stmtCacher_PrepareContext ctx query sc w).1.1 with
    | Err e => RowPtr (mkRow nilRowScanner (Some e))
    | Ok st =>
        rowOfSql (Stmt_QueryRowContext st ctx args
                    (trace (stmtCacher_PrepareContext ctx query sc w).2))
    end.
Proof.
  rewrite QueryRowContext_unfold.
  by destruct (stmtCacher_PrepareContext ctx query sc w) as [[[st|e] sc'] w'].
Qed.

Lemma QueryRowContext_scan ctx query args sc w :
  exists r, RowScanner_Scan (stmtCacher_QueryRowContext ctx query args sc w).1.1 = Returned r.
Proof.
  rewrite QueryRowContext_row.
  destruct (stmtCacher_PrepareContext ctx query sc w).1.1 as [st|e].
  - apply rowOfSql_scan.
  - by eexists.
Qed.

(** C7. The single-row operations return a scanner that is not nil, on
    every input, and one that can be scanned.  A helper returns a [Row]
    that holds the row the handle answered with and the error of
    [ToSql]: its [Scan] returns that error when there is one and is the
    [Scan] of the handle's row otherwise, so it returns wherever the
    handle's row can be scanned.  The cacher returns a [Row] storing the
    error of the preparation, or the row of the statement, and its
    [Scan] returns on every input.  When [ToSql] fails (for the helpers)
    or the preparation fails (for the cacher), [Scan] returns that
    error; so does the [Scan] of what the guarded adapter returns for a
    handle without the capability. *)
Theorem single_row_scannable
    (db : QueryRower) (dbc : QueryRowerContext) (s : Sqlizer)
    (ctx : Context) (query : string) (args : list value) (sc : stmtCacher) (w : world) :
  let row := QueryRow db (ToSql s).1.1 (ToSql s).1.2 (trace w) in
  let rowc := QueryRowContext dbc ctx (ToSql s).1.1 (ToSql s).1.2 (trace w) in
  (QueryRowWith db s w).1 <> nilRowScanner /\
  (QueryRowWithContext ctx dbc s w).1 <> nilRowScanner /\
  (stmtCacher_QueryRow query args sc w).1.1 <> nilRowScanner /\
  (stmtCacher_QueryRowContext ctx query args sc w).1.1 <> nilRowScanner /\
  (QueryRowWith db s w).1 = RowPtr (mkRow row (ToSql s).2) /\
  (QueryRowWithContext ctx dbc s w).1 = RowPtr (mkRow rowc (ToSql s).2) /\
  RowScanner_Scan (QueryRowWith db s w).1
    = match (ToSql s).2 with
      | Some e => Returned (Some e)
      | None => RowScanner_Scan row
      end /\
  RowScanner_Scan (QueryRowWithContext ctx dbc s w).1
    = match (ToSql s).2 with
      | Some e => Returned (Some e)
      | None => RowScanner_Scan rowc
      end /\
  (RowScanner_Scan row <> Panicked ->
   RowScanner_Scan (QueryRowWith db s w).1 <> Panicked) /\
  (RowScanner_Scan rowc <> Panicked ->
   RowScanner_Scan (QueryRowWithContext ctx dbc s w).1 <> Panicked) /\
  (stmtCacher_QueryRowContext ctx query args sc w).1.1
    = match (stmtCacher_PrepareContext ctx query sc w).1.1 with
      | Err e => RowPtr (mkRow nilRowScanner (Some e))
      | Ok st =>
          rowOfSql (Stmt_QueryRowContext st ctx args
                      (trace (stmtCacher_PrepareContext ctx query sc w).2))
      end /\
  RowScanner_Scan (stmtCacher_QueryRow query args sc w).1.1 <> Panicked /\
  RowScanner_Scan (stmtCacher_QueryRowContext ctx query args sc w).1.1 <> Panicked /\
  (forall e, (ToSql s).2 = Some e ->
     (exists inner, (QueryRowWith db s w).1 = RowPtr (mkRow inner (Some e))) /\
     RowScanner_Scan (QueryRowWith db s w).1 = Returned (Some e) /\
     (exists inner, (QueryRowWithContext ctx dbc s w).1 = RowPtr (mkRow inner (Some e))) /\
     RowScanner_Scan (QueryRowWithContext ctx dbc s w).1 = Returned (Some e)) /\
  (forall e, (stmtCacher_Prepare query sc w).1.1 = Err e ->
     (stmtCacher_QueryRow query args sc w).1.1 = RowPtr (mkRow nilRowScanner (Some e)) /\
     RowScanner_Scan (stmtCacher_QueryRow query args sc w).1.1 = Returned (Some e)) /\
  (forall e, (stmtCacher_PrepareContext ctx query sc w).1.1 = Err e ->
     (stmtCacher_QueryRowContext ctx query args sc w).1.1
       = RowPtr (mkRow nilRowScanner (Some e)) /\
     RowScanner_Scan (stmtCacher_QueryRowContext ctx query args sc w).1.1
       = Returned (Some e)) /\
  (forall b, assertQueryRower b = None ->
     RowScanner_Scan (otherRunner_QueryRow b query args w).1
       = Returned (Some ErrRunnerNotQueryRunner)) /\
  (forall b, assertQueryRowerContext b = None ->
     RowScanner_Scan (otherRunner_QueryRowContext b ctx query args w).1
       = Returned (Some ErrRunnerNotQueryRunnerContext)).
Proof.
  intros row rowc.
  assert (Hscan : forall c,
    RowScanner_Scan (stmtCacher_QueryRowContext c query args sc w).1.1 <> Panicked).
  { intros c. by destruct (QueryRowContext_scan c query args sc w) as [r ->]. }
  assert (Hnil : forall c,
    (stmtCacher_QueryRowContext c query args sc w).1.1 <> nilRowScanner).
  { intros c E. apply (Hscan c). by rewrite E. }
  assert (Herr : forall c e,
    (stmtCacher_PrepareContext c query sc w).1.1 = Err e ->
    (stmtCacher_QueryRowContext c query args sc w).1.1
      = RowPtr (mkRow nilRowScanner (Some e))).
  { intros c e He. by rewrite QueryRowContext_row, He. }
  pose proof (QueryRowWith_row db s w) as Hrow.
  pose proof (QueryRowWithContext_row ctx dbc s w) as Hrowc.
  fold row in Hrow. fold rowc in Hrowc.
  unfold stmtCacher_QueryRow, stmtCacher_Prepare.
  rewrite Hrow, Hrowc.
  split; [discriminate |]. split; [discriminate |].
  split; [apply Hnil |]. split; [apply Hnil |].
  split; [done |]. split; [done |].
  split; [cbn; by destruct (ToSql s).2 |].
  split; [cbn; by destruct (ToSql s).2 |].
  split; [cbn; by destruct (ToSql s).2 |].
  split; [cbn; by destruct (ToSql s).2 |].
  split; [apply QueryRowContext_row |].
  split; [apply Hscan |]. split; [apply Hscan |].
  split.
  { intros e ->. cbn. eauto 10. }
  split; [intros e He; by rewrite (Herr _ _ He) |].
  split; [intros e He; by rewrite (Herr _ _ He) |].
  split.
  - intros b Hb. unfold otherRunner_QueryRow. by rewrite Hb.
  - intros b Hb. unfold otherRunner_QueryRowContext. by rewrite Hb.
Qed.

Lemma single_row_scannable_witness :
  let e := errorString "values list is empty" in
  let e' := errorString "syntax error" in
  RowScanner_Scan (QueryRowWith sampleQueryRower emptyValuesBuilder w0).1
    = Returned (Some e) /\
  RowScanner_Scan
    (stmtCacher_QueryRowContext Background "SELEC 1" [] (NewStmtCacher failingPreparer) w0).1.1
    = Returned (Some e') /\
  RowScanner_Scan (QueryRowWith sampleQueryRower (ValuesBuilder_Sqlizer twoRows) w0).1
    <> Panicked /\
  (QueryRowWith sampleQueryRower (ValuesBuilder_Sqlizer twoRows) w0).1
    = RowPtr (mkRow (driverRow None) None) /\
  RowScanner_Scan
    (stmtCacher_QueryRowContext Background "SELECT 1" [] (NewStmtCacher freshPreparer) w0).1.1
    <> Panicked /\
  RowScanner_Scan
    (otherRunner_QueryRow (custom execOnly) "SELECT 1" [] w0).1
    = Returned (Some ErrRunnerNotQueryRunner).
Proof.
  intros e e'.
  destruct (single_row_scannable sampleQueryRower sampleQueryRowerContext
              emptyValuesBuilder Background "SELEC 1" []
              (NewStmtCacher failingPreparer) w0)
    as (_ & _ & _ & _ & _ & _ & _ & _ & _ & _ & _ & _ & _ & Hs & _ & Hp & _).
  destruct (single_row_scannable sampleQueryRower sampleQueryRowerContext
              (ValuesBuilder_Sqlizer twoRows) Background "SELECT 1" []
              (NewStmtCacher freshPreparer) w0)
    as (_ & _ & _ & _ & Hrow & _ & _ & _ & Hok & _ & _ & _ & Hc & _ & _ & _ & Ha & _).
  split; [apply (Hs e); reflexivity |].
  split; [apply (Hp e'); reflexivity |].
  split; [apply Hok; discriminate |].
  split; [apply Hrow |].
  split; [apply Hc |].
  apply (Ha (custom execOnly)). reflexivity.
Defined.

(** ** The janitor *)

Lemma with_cache_id sc : with_cache sc (cache sc) = sc.
Proof. by destruct sc. Qed.

Lemma cleanup_entry_eq age kv sc w :
  cleanup_entry age kv sc w =
    if decide (expired age (now w) kv.2)
    then (with_cache sc (delete kv.1 (cache sc)),
          after_call (EvStmtClose (Stmt_id (stmt kv.2))) w)
    else (sc, w).
Proof.
  unfold cleanup_entry, time_Since, expired. cbv [mbind M_bind bind time_Now ret mret M_ret].
  destruct (Z.ltb_spec age (time_Sub (now w) (lastUse kv.2))); case_decide; done || lia.
Qed.

Lemma cleanup_range_eq age order sc w :
  cleanup_range age order sc w =
    (with_cache sc (delete_keys (evicted age (now w) order) (cache sc)),
     {| now := now w; trace := trace w ++ close_calls (evicted age (now w) order) |}).
Proof.
  revert sc w. induction order as [|kv rest IH]; intros sc w.
  - cbn. rewrite with_cache_id, app_nil_r. by destruct w.
  - cbn [cleanup_range]. cbv [mbind M_bind bind]. rewrite cleanup_entry_eq.
    unfold evicted. rewrite filter_cons.
    case_decide as Hexp.
    + rewrite IH. cbn. by rewrite <- app_assoc.
    + by rewrite IH.
Qed.

Lemma lookup_delete_keys l (c : gmap string savedStmt) k :
  delete_keys l c !! k = if decide (k ∈ l.*1) then None else c !! k.
Proof.
  revert c. induction l as [|[k' v'] l IH]; intros c.
  - cbn. case_decide; [set_solver | done].
  - change (delete_keys ((k', v') :: l) c) with (delete_keys l (delete k' c)).
    rewrite IH, fmap_cons. cbn. destruct (decide (k = k')) as [->|Hne].
    + rewrite lookup_delete_eq. repeat case_decide; set_solver.
    + rewrite lookup_delete_ne by done. repeat case_decide; set_solver.
Qed.

Lemma map_to_list_filter_perm (P : string * savedStmt -> Prop)
    `{!forall x, Decision (P x)} (c : gmap string savedStmt) :
  map_to_list (filter P c) ≡ₚ filter P (map_to_list c).
Proof.
  apply NoDup_Permutation.
  - apply NoDup_map_to_list.
  - apply NoDup_filter, NoDup_map_to_list.
  - intros [k v]. rewrite list_elem_of_filter, !elem_of_map_to_list, map_lookup_filter_Some.
    tauto.
Qed.

Lemma closed_stmts_app h1 h2 : closed_stmts (h1 ++ h2) = closed_stmts h1 ++ closed_stmts h2.
Proof. apply omap_app. Qed.

Lemma closed_stmts_close_calls l :
  closed_stmts (close_calls l) = (fun kv => Stmt_id (stmt kv.2)) <$> l.
Proof. induction l as [|kv l IH]; cbn; [done | by f_equal]. Qed.

(** For a maximal age that is a [time.Duration] below the largest one
    (as [maxAge] is), the saturation of [Time.Sub] does not show: the
    test compares the difference of the two times. *)
Lemma expired_iff age n v :
  minDuration <= age < maxDuration ->
  expired age n v <-> age < n - lastUse v.
Proof.
  unfold expired, time_Sub, maxDuration, minDuration. cbv zeta. intros Hage.
  destruct (Z.ltb_spec (2 ^ 63 - 1) (n - lastUse v));
    [| destruct (Z.ltb_spec (n - lastUse v) (- 2 ^ 63))]; lia.
Qed.

Lemma maxAge_in_range : minDuration <= maxAge < maxDuration.
Proof. by vm_compute. Qed.

(** What a range over the whole map leaves of it. *)
Lemma cleanup_range_evicts age order sc w k :
  order ≡ₚ map_to_list (cache sc) ->
  cache (cleanup_range age order sc w).1 !! k =
    match cache sc !! k with
    | Some v => if decide (expired age (now w) v) then None else Some v
    | None => None
    end.
Proof.
  intros Hperm. rewrite cleanup_range_eq. cbn.
  assert (Hin : k ∈ (evicted age (now w) order).*1 <->
                exists v, cache sc !! k = Some v /\ expired age (now w) v).
  { unfold evicted. rewrite list_elem_of_fmap. split.
    - intros [[k' v] [-> Hkv]]. apply list_elem_of_filter in Hkv as [Hexp Hkv].
      rewrite Hperm in Hkv. apply elem_of_map_to_list in Hkv. eauto.
    - intros (v & Hk & Hexp). exists (k, v). split; [done |].
      apply list_elem_of_filter. split; [done |].
      rewrite Hperm. by apply elem_of_map_to_list. }
  rewrite lookup_delete_keys.
  destruct (cache sc !! k) as [v|] eqn:Hk.
  - repeat case_decide; try done.
    + apply Hin in H as (v' & ? & ?). by simplify_eq.
    + exfalso. apply H, Hin. eauto.
  - case_decide; done.
Qed.

(** C5. One tick, whatever the order in which the map is ranged over
    and for a maximal age in the range of durations: an entry whose idle
    time, now minus its last use, exceeds the maximal age is gone from
    the map afterwards; every other entry is in the map as it was;
    nothing is added; the calls of the tick are [Close] calls, one for
    each evicted entry and no other. *)
Theorem janitor_tick age order sc w :
  minDuration <= age < maxDuration ->
  order ≡ₚ map_to_list (cache sc) ->
  forall sc' w', cleanup_range age order sc w = (sc', w') ->
  (forall k v, cache sc !! k = Some v -> age < now w - lastUse v ->
               cache sc' !! k = None) /\
  (forall k v, cache sc !! k = Some v -> now w - lastUse v <= age ->
               cache sc' !! k = Some v) /\
  (forall k, cache sc !! k = None -> cache sc' !! k = None) /\
  cache sc' = filter (fun kv => ~ expired age (now w) kv.2) (cache sc) /\
  trace w' = trace w ++ close_calls (evicted age (now w) order) /\
  closed_stmts (trace w') ≡ₚ
    closed_stmts (trace w) ++
    ((fun kv => Stmt_id (stmt kv.2)) <$>
       map_to_list (filter (fun kv => expired age (now w) kv.2) (cache sc))).
Proof.
  intros Hage Hperm sc' w' Hrun.
  assert (Hlook := fun k => cleanup_range_evicts age order sc w k Hperm).
  rewrite cleanup_range_eq in Hrun, Hlook. injection Hrun as <- <-. cbn in *.
  split; [| split; [| split; [| split; [| split]]]].
  - intros k v Hk Hexp. rewrite Hlook, Hk.
    case_decide as Hd; [done |]. by rewrite expired_iff in Hd.
  - intros k v Hk Hexp. rewrite Hlook, Hk.
    case_decide as Hd; [| done]. rewrite expired_iff in Hd by done. lia.
  - intros k Hk. by rewrite Hlook, Hk.
  - apply map_eq. intros k. rewrite Hlook.
    destruct (cache sc !! k) as [v|] eqn:Hk.
    + case_decide as Hexp.
      * symmetry. apply map_lookup_filter_None. right. intros v' Hv'. simplify_eq. cbn. tauto.
      * symmetry. apply map_lookup_filter_Some. done.
    + symmetry. apply map_lookup_filter_None. by left.
  - done.
  - rewrite closed_stmts_app, closed_stmts_close_calls.
    apply Permutation_app_head. apply fmap_Permutation.
    rewrite map_to_list_filter_perm. unfold evicted. by rewrite Hperm.
Qed.

Lemma janitor_tick_witness :
  let st := cleanup_range maxAge (map_to_list (cache twoEntries)) twoEntries fiveHours in
  cache st.1 !! "SELECT old" = None /\
  cache st.1 !! "SELECT new" = Some {| stmt := sampleStmt 2; lastUse := 4 * time_Hour |} /\
  trace st.2 = [EvStmtClose 1].
Proof.
  intros st.
  assert (Hage : minDuration <= maxAge < maxDuration) by (by vm_compute).
  destruct (janitor_tick maxAge (map_to_list (cache twoEntries)) twoEntries fiveHours
              Hage (reflexivity _) st.1 st.2 (surjective_pairing _))
    as (Hold & Hnew & _ & _ & Htr & _).
  split; [| split].
  - apply (Hold _ {| stmt := sampleStmt 1; lastUse := 0 |}); [reflexivity |].
    vm_compute; reflexivity.
  - apply Hnew; [reflexivity |].
    vm_compute; discriminate.
  - rewrite Htr. vm_compute. reflexivity.
Defined.

(** *** Ticks during which time passes *)

Lemma expired_mono age n n' v : n <= n' -> expired age n v -> expired age n' v.
Proof.
  unfold expired, time_Sub, maxDuration, minDuration. cbv zeta. intros Hn.
  repeat match goal with
         | |- context [?a <? ?b] => destruct (Z.ltb_spec a b)
         end; lia.
Qed.

Lemma end_of_tick_le n order : n <= end_of_tick n order.
Proof.
  revert n. induction order as [|[d kv] rest IH]; intros n; cbn; [lia |].
  etrans; [| apply IH]. lia.
Qed.

Lemma cleanup_range_timed_eq age order sc w :
  cleanup_range_timed age order sc w =
    (with_cache sc (delete_keys (evicted_timed age (now w) order) (cache sc)),
     {| now := end_of_tick (now w) order;
        trace := trace w ++ close_calls (evicted_timed age (now w) order) |}).
Proof.
  revert sc w. induction order as [|[d kv] rest IH]; intros sc w.
  - cbn. rewrite with_cache_id, app_nil_r. by destruct w.
  - cbn [cleanup_range_timed evicted_timed end_of_tick foldl]. rewrite cleanup_entry_eq.
    cbn [elapse now trace fst snd].
    case_decide as Hexp.
    + rewrite IH. cbn. by rewrite <- app_assoc.
    + by rewrite IH.
Qed.

Lemma evicted_timed_sublist age n order : sublist (evicted_timed age n order) order.*2.
Proof.
  revert n. induction order as [|[d kv] rest IH]; intros n; cbn; [constructor |].
  case_decide; [apply sublist_skip | apply sublist_cons]; apply IH.
Qed.

Lemma evicted_timed_expired age n order kv :
  kv ∈ evicted_timed age n order -> expired age (end_of_tick n order) kv.2.
Proof.
  revert n. induction order as [|[d kv'] rest IH]; intros n; cbn; [by intros ?%elem_of_nil |].
  case_decide as Hexp; [rewrite elem_of_cons; intros [->|Hin] | intros Hin];
    try by apply IH.
  eapply expired_mono; [apply end_of_tick_le | done].
Qed.

Lemma evicted_timed_complete age n order kv :
  kv ∈ order.*2 -> expired age n kv.2 -> kv ∈ evicted_timed age n order.
Proof.
  revert n. induction order as [|[d kv'] rest IH]; intros n; cbn; [by intros ?%elem_of_nil |].
  rewrite elem_of_cons. intros [->|Hin] Hexp.
  - rewrite decide_True; [by left |]. eapply expired_mono; [| done]. lia.
  - assert (expired age (n + Z.of_N d) kv.2) by (eapply expired_mono; [| done]; lia).
    case_decide; [right |]; by apply IH.
Qed.

(** The tick of the claim is the tick during which no time passes. *)
Lemma cleanup_range_instant age order sc w :
  cleanup_range age order sc w = cleanup_range_timed age ((fun kv => (0%N, kv)) <$> order) sc w.
Proof.
  revert sc w. induction order as [|kv rest IH]; intros sc w; [done |].
  cbn. cbv [mbind M_bind bind].
  replace (elapse 0 w) with w by (destruct w; unfold elapse; cbn; f_equal; lia).
  destruct (cleanup_entry age kv sc w) as [sc' w']. apply IH.
Qed.

(** A tick during which time passes, whatever the order of the range:
    an entry idle for more than the maximal age when the tick starts is
    evicted, an entry idle for no more than it when the tick ends is
    kept, the map only loses entries, and the calls of the tick are one
    [Close] for each entry the map lost. *)
Lemma janitor_tick_while_time_passes age order sc w :
  minDuration <= age < maxDuration ->
  order.*2 ≡ₚ map_to_list (cache sc) ->
  forall sc' w', cleanup_range_timed age order sc w = (sc', w') ->
  now w <= now w' /\
  (forall k v, cache sc !! k = Some v -> age < now w - lastUse v ->
               cache sc' !! k = None) /\
  (forall k v, cache sc !! k = Some v -> now w' - lastUse v <= age ->
               cache sc' !! k = Some v) /\
  cache sc' ⊆ cache sc /\
  exists gone,
    gone ≡ₚ map_to_list (cache sc ∖ cache sc') /\
    trace w' = trace w ++ close_calls gone.
Proof.
  intros Hage Hperm sc' w'. rewrite cleanup_range_timed_eq. intros [= <- <-]. cbn.
  set (E := evicted_timed age (now w) order).
  assert (HE : forall k v, (k, v) ∈ E -> cache sc !! k = Some v).
  { intros k v Hin. apply elem_of_map_to_list. rewrite <- Hperm.
    eapply elem_of_sublist; [exact Hin | apply evicted_timed_sublist]. }
  assert (Hlook : forall k, delete_keys E (cache sc) !! k =
                    if decide (k ∈ E.*1) then None else cache sc !! k).
  { intros k. apply lookup_delete_keys. }
  assert (Hfst : forall k, k ∈ E.*1 <-> exists v, (k, v) ∈ E).
  { intros k. rewrite list_elem_of_fmap. split.
    - intros ([k' v] & -> & Hin). eauto.
    - intros [v Hin]. by exists (k, v). }
  split; [apply end_of_tick_le |].
  split; [| split; [| split]].
  - intros k v Hk Hexp. rewrite Hlook, decide_True; [done |].
    apply Hfst. exists v. apply evicted_timed_complete.
    + rewrite Hperm. by apply elem_of_map_to_list.
    + by apply expired_iff.
  - intros k v Hk Hexp. rewrite Hlook, decide_False; [done |].
    intros [v' Hin]%Hfst. pose proof (HE _ _ Hin) as Hk'. simplify_eq.
    apply evicted_timed_expired in Hin. apply expired_iff in Hin; [| done]. cbn in Hin. lia.
  - apply map_subseteq_spec. intros k v. rewrite Hlook. by case_decide.
  - exists E. split; [| done].
    apply NoDup_Permutation.
    + eapply sublist_NoDup; [| apply evicted_timed_sublist].
      rewrite Hperm. apply NoDup_map_to_list.
    + apply NoDup_map_to_list.
    + intros [k v]. rewrite elem_of_map_to_list, lookup_difference_Some, Hlook. split.
      * intros Hin. split; [by apply HE |]. rewrite decide_True; [done |].
        apply Hfst. eauto.
      * intros [Hk Hnone]. case_decide as Hin; [| congruence].
        apply Hfst in Hin as [v' Hin]. pose proof (HE _ _ Hin). by simplify_eq.
Qed.

(** ** The statement cacher over time *)

Lemma cache_touch query st t sc :
  cache (touch query st t sc) = <[query := {| stmt := st; lastUse := t |}]> (cache sc).
Proof. done. Qed.

Lemma PrepareContext_keeps_stmt ctx q Q sc w h :
  stmt <$> cache sc !! Q = Some h ->
  stmt <$> cache (stmtCacher_PrepareContext ctx q sc w).1.2 !! Q = Some h.
Proof.
  intros HQ.
  destruct (PrepareContext_cases ctx q sc w)
    as [(s & Hs & ->)|[(st & Hn & ->)|(e & Hn & ->)]]; cbn; [| | done].
  - destruct (decide (q = Q)) as [->|Hne].
    + rewrite lookup_insert_eq. rewrite Hs in HQ. by cbn in *.
    + by rewrite lookup_insert_ne.
  - destruct (decide (q = Q)) as [->|Hne].
    + by rewrite Hn in HQ.
    + by rewrite lookup_insert_ne.
Qed.

Lemma ExecContext_cacher ctx q args sc w :
  (stmtCacher_ExecContext ctx q args sc w).1.2 = (stmtCacher_PrepareContext ctx q sc w).1.2.
Proof.
  unfold stmtCacher_ExecContext. cbv [mbind M_bind bind].
  destruct (stmtCacher_PrepareContext ctx q sc w) as [[[st|e] sc'] w']; done.
Qed.

Lemma QueryContext_cacher ctx q args sc w :
  (stmtCacher_QueryContext ctx q args sc w).1.2 = (stmtCacher_PrepareContext ctx q sc w).1.2.
Proof.
  unfold stmtCacher_QueryContext. cbv [mbind M_bind bind].
  destruct (stmtCacher_PrepareContext ctx q sc w) as [[[st|e] sc'] w']; done.
Qed.

Lemma QueryRowContext_cacher ctx q args sc w :
  (stmtCacher_QueryRowContext ctx q args sc w).1.2
  = (stmtCacher_PrepareContext ctx q sc w).1.2.
Proof.
  rewrite QueryRowContext_unfold.
  destruct (stmtCacher_PrepareContext ctx q sc w) as [[[st|e] sc'] w']; done.
Qed.

(** A tick only removes entries. *)
Lemma cleanup_range_lookup age order sc w k v :
  cache (cleanup_range age order sc w).1 !! k = Some v -> cache sc !! k = Some v.
Proof.
  rewrite cleanup_range_eq. cbn. rewrite lookup_delete_keys. by case_decide.
Qed.

Lemma run_op_cacher o sc w :
  (run_op o (sc, w)).1 =
    match o with
    | OpPrepareContext ctx q | OpExecContext ctx q _
    | OpQueryContext ctx q _ | OpQueryRowContext ctx q _ =>
        (stmtCacher_PrepareContext ctx q sc w).1.2
    | OpTick age => (startCleanup_tick age sc w).1
    | OpElapse _ => sc
    end.
Proof.
  destruct o as [ctx q|ctx q args|ctx q args|ctx q args|age|d]; cbn; try done.
  - by destruct (stmtCacher_PrepareContext ctx q sc w) as [[? ?] ?].
  - rewrite <- (ExecContext_cacher ctx q args).
    by destruct (stmtCacher_ExecContext ctx q args sc w) as [[? ?] ?].
  - rewrite <- (QueryContext_cacher ctx q args).
    by destruct (stmtCacher_QueryContext ctx q args sc w) as [[? ?] ?].
  - rewrite <- (QueryRowContext_cacher ctx q args).
    by destruct (stmtCacher_QueryRowContext ctx q args sc w) as [[? ?] ?].
Qed.

Lemma run_op_keeps_stmt o Q st h :
  stmt <$> cache st.1 !! Q = Some h ->
  is_Some (cache (run_op o st).1 !! Q) ->
  stmt <$> cache (run_op o st).1 !! Q = Some h.
Proof.
  destruct st as [sc w]. cbn [fst]. intros HQ. rewrite run_op_cacher.
  destruct o as [ctx q|ctx q args|ctx q args|ctx q args|age|d];
    [by intros; apply PrepareContext_keeps_stmt .. | |done].
  intros [v Hv]. rewrite Hv.
  apply cleanup_range_lookup in Hv. by rewrite Hv in HQ.
Qed.

Lemma still_cached_stmt Q st st' h :
  still_cached Q st st' ->
  stmt <$> cache st.1 !! Q = Some h ->
  stmt <$> cache st'.1 !! Q = Some h.
Proof. induction 1; eauto using run_op_keeps_stmt. Qed.

(** C2. After a call of [PrepareContext] on a text has returned a
    statement, and for as long as the entry of the text has not been
    evicted (whatever else was done with the cacher meanwhile, janitor
    ticks included), a call on the same text returns that statement and
    makes no call to the outside: the world after it is the world before
    it. *)
Theorem PrepareContext_idempotent ctx Q sc w h sc1 w1 :
  stmtCacher_PrepareContext ctx Q sc w = (Ok h, sc1, w1) ->
  forall sc2 w2, still_cached Q (sc1, w1) (sc2, w2) ->
  forall ctx',
    stmtCacher_PrepareContext ctx' Q sc2 w2 = (Ok h, touch Q h (now w2) sc2, w2) /\
    prepare_calls (trace (stmtCacher_PrepareContext ctx' Q sc2 w2).2)
      = prepare_calls (trace w2).
Proof.
  intros Hfirst sc2 w2 Hstill ctx'.
  assert (H1 : stmt <$> cache sc1 !! Q = Some h).
  { destruct (PrepareContext_cases ctx Q sc w)
      as [(s & Hs & E)|[(st & Hn & E)|(e & Hn & E)]];
      rewrite E in Hfirst; simplify_eq; rewrite cache_touch, lookup_insert_eq; done. }
  pose proof (still_cached_stmt Q _ _ h Hstill H1) as H2. cbn in H2.
  destruct (cache sc2 !! Q) as [s|] eqn:Hs; [| done].
  cbn in H2. simplify_eq.
  rewrite (PrepareContext_hit _ _ _ _ _ Hs). done.
Qed.

(** Each hit renews the entry: used at 0h, 1h and 5h, the text is
    prepared once and survives the ticks at 4h and 8h; left alone until
    the tick at 12h, it is closed then and prepared anew afterwards. *)
Example one_day_of_one_text :
  let st := run_ops oneDay (NewStmtCacher freshPreparer, w0) in
  let st' := run_ops afterEviction (NewStmtCacher freshPreparer, w0) in
  trace st.2 = [EvPrepareContext Background "SELECT 1"] /\
  lastUse <$> cache st.1 !! "SELECT 1" = Some (5 * time_Hour) /\
  trace st'.2 = [EvPrepareContext Background "SELECT 1"; EvStmtClose 1;
                 EvPrepareContext Background "SELECT 1"].
Proof. by vm_compute. Qed.

(** Within the maximal age (a [time.Duration], so not below
    [minDuration]) no tick evicts the entry. *)
Lemma fresh_entry_survives_tick age sc w Q v :
  minDuration <= age ->
  cache sc !! Q = Some v ->
  now w - lastUse v <= age ->
  cache (startCleanup_tick age sc w).1 !! Q = Some v.
Proof.
  intros Hmin HQ Hage. unfold startCleanup_tick. unfold minDuration in Hmin.
  rewrite cleanup_range_evicts by done. rewrite HQ.
  case_decide as Hexp; [| done].
  unfold expired, time_Sub, maxDuration, minDuration in Hexp. cbv zeta in Hexp.
  destruct (Z.ltb_spec (2 ^ 63 - 1) (now w - lastUse v));
    [| destruct (Z.ltb_spec (now w - lastUse v) (- 2 ^ 63))]; lia.
Qed.

Lemma PrepareContext_idempotent_witness :
  let first := stmtCacher_PrepareContext Background "SELECT 1" (NewStmtCacher freshPreparer) w0 in
  let later :=
    run_op (OpPrepareContext Background "SELECT 2")
      (run_op (OpTick maxAge) (run_op (OpElapse 3600000000000) (first.1.2, first.2))) in
  first.1.1 = Ok (sampleStmt 1) /\
  (stmtCacher_PrepareContext (WithCancel 7) "SELECT 1" later.1 later.2).1.1
    = Ok (sampleStmt 1) /\
  (stmtCacher_PrepareContext (WithCancel 7) "SELECT 1" later.1 later.2).2 = later.2 /\
  prepare_calls (trace later.2)
    = [(Background, "SELECT 1"); (Background, "SELECT 2")].
Proof.
  intros first later.
  assert (Hstill : still_cached "SELECT 1" (first.1.2, first.2) (later.1, later.2)).
  { replace (later.1, later.2) with later by (by vm_compute).
    unfold later.
    repeat (apply still_after; [| eexists; vm_compute; reflexivity]).
    apply still_here. }
  destruct (PrepareContext_idempotent Background "SELECT 1" (NewStmtCacher freshPreparer)
              w0 (sampleStmt 1) first.1.2 first.2 eq_refl later.1 later.2 Hstill
              (WithCancel 7)) as [Heq _].
  split; [reflexivity |]. rewrite Heq. repeat split.
Defined.

(** ** Concurrent callers *)

Lemma threads_insert_lookup (l : list thread) i t new k t' :
  l !! i = Some t ->
  <[i := new]> l !! k = Some t' ->
  (k = i /\ t' = new) \/ (k <> i /\ l !! k = Some t').
Proof.
  intros Hi. destruct (decide (k = i)) as [->|Hne].
  - rewrite list_lookup_insert_eq by (by eapply lookup_lt_Some). intros [= <-]. by left.
  - rewrite list_lookup_insert_ne by done. by right.
Qed.

Lemma sum_list_insert_lt (l : list nat) i x y :
  l !! i = Some x -> (y < x)%nat -> (sum_list (<[i := y]> l) < sum_list l)%nat.
Proof.
  revert i. induction l as [|z l IH]; intros [|i] Hi Hlt; cbn in *; try done.
  - injection Hi as ->. by apply Nat.add_lt_mono_r.
  - apply Nat.add_lt_mono_l, IH; done.
Qed.

(** Every step a caller can take uses up some of the work left. *)
Lemma step_work_left i c :
  enabled i c = true -> (work_left (step i c) < work_left c)%nat.
Proof.
  unfold enabled, step, work_left. intros Hen.
  destruct (c_threads c !! i) as [t|] eqn:Hi; [| done].
  assert (Hlt : forall p sc h w, (steps_left p < steps_left (t_pc t))%nat ->
    (sum_list (steps_left ∘ t_pc <$> c_threads (move c i t p sc h w))
     < sum_list (steps_left ∘ t_pc <$> c_threads c))%nat).
  { intros p sc h w Hp. cbn [move c_threads]. rewrite list_fmap_insert.
    eapply sum_list_insert_lt; [| exact Hp].
    by rewrite list_lookup_fmap, Hi. }
  destruct (t_pc t) eqn:Hp.
  - destruct (c_holder c); [done |]. apply Hlt; cbn; lia.
  - destruct (cache (c_sc c) !! t_query t); cbn [time_Now];
      apply Hlt; cbn; lia.
  - unfold call.
    destruct (PrepareContext (prep (c_sc c)) (t_ctx t) (t_query t) (trace (c_world c)));
      apply Hlt; cbn; lia.
  - cbn [time_Now]. apply Hlt; cbn; lia.
  - apply Hlt; cbn; lia.
  - done.
Qed.

(** A caller that runs alone does what the method does. *)
Lemma solo_caller sc w ctx q :
  let r := stmtCacher_PrepareContext ctx q sc w in
  run (replicate 5 (Run 0%nat)) (start sc w q [ctx])
  = {| c_sc := r.1.2; c_holder := None; c_world := r.2;
       c_threads := [{| t_ctx := ctx; t_query := q; t_pc := Done r.1.1 |}] |}.
Proof.
  cbn zeta. unfold stmtCacher_PrepareContext. cbn.
  destruct (cache sc !! q) as [s|] eqn:Hs; [done |].
  cbn. cbv [mbind M_bind bind call]. 
  destruct (PrepareContext (prep sc) ctx q (trace w)) as [st|e]; done.
Qed.

Section Callers.
Variables (sc0 : stmtCacher) (w0 : world) (Q : string) (ctxs : list Context)
          (st : sqlStmt).
Hypothesis not_cached : cache sc0 !! Q = None.
Hypothesis prepares :
  forall ctx, ctx ∈ ctxs -> PrepareContext (prep sc0) ctx Q (trace w0) = Ok st.

Lemma inv_start : inv sc0 w0 Q ctxs st (start sc0 w0 Q ctxs).
Proof.
  exists Fresh. unfold start; cbn [c_sc c_threads c_holder c_world config_in_phase].
  split; [done |]. split; [by rewrite length_fmap |].
  split; [done |]. split; [done |].
  intros k t Hk. apply list_lookup_fmap_Some in Hk as (ctx & -> & Hctx).
  repeat split; cbn; try done.
  - by eapply list_elem_of_lookup_2.
  - by left.
Qed.

Lemma inv_step i c : inv sc0 w0 Q ctxs st c -> inv sc0 w0 Q ctxs st (step i c).
Proof.
  intros (ph & Hprep & Hlen & Hhold & Hph & Hts). unfold step.
  destruct (c_threads c !! i) as [t|] eqn:Hi; [| by exists ph].
  destruct (Hts i t Hi) as (Hq & Hctx & Hlock & Hpc).
  assert (Hsome : forall new k,
            is_Some (c_threads c !! k) -> is_Some (<[i := new]> (c_threads c) !! k)).
  { intros new k. rewrite !lookup_lt_is_Some, length_insert. done. }
  assert (Hothers : forall k t', k <> i -> c_threads c !! k = Some t' ->
            c_holder c = Some i -> t_pc t' = AtLock \/ exists r, t_pc t' = Done r).
  { intros k t' Hne Hk Hh. destruct (Hts k t' Hk) as (_ & _ & Hl & _).
    destruct (t_pc t'); cbn in Hl; eauto;
      (assert (c_holder c = Some k) by (by apply Hl); congruence). }
  destruct (t_pc t) as [| | |s|r|r] eqn:Hp; cbn in Hlock.
  - (* Lock *)
    destruct (c_holder c) as [j|] eqn:Hh; [by exists ph; rewrite Hh |].
    assert (Hfree : forall j ctx, ph <> Storing j ctx).
    { intros j ctx ->. cbn in Hph. destruct Hph as (_ & _ & _ & ?). congruence. }
    exists ph. cbn [move c_sc c_holder c_world c_threads]. rewrite length_insert.
    split; [done |]. split; [done |]. split.
    { intros j [= <-]. apply Hsome. by rewrite Hi. }
    split.
    { destruct ph as [|j ctx|ctx]; cbn in *; try done. by destruct (Hfree j ctx). }
    intros k t' Hk.
    apply (threads_insert_lookup _ _ _ _ _ _ Hi) in Hk as [[-> ->]|[Hne Hk]].
    + repeat split; cbn; try done.
      destruct ph as [|j ctx|ctx]; cbn in *; try tauto. by destruct (Hfree j ctx).
    + destruct (Hts k t' Hk) as (? & ? & Hl & ?).
      repeat split; try done.
      * intros Hx. apply Hl in Hx. done.
      * intros [= ->]. done.
  - (* Lookup *)
    assert (Hh : c_holder c = Some i) by tauto.
    rewrite Hq.
    destruct ph as [|j ctx|ctx]; cbn in Hph, Hpc.
    + (* miss *)
      destruct Hph as [Htr Hnone]. rewrite Hnone.
      exists Fresh. cbn [move c_sc c_holder c_world c_threads]. rewrite length_insert.
      split; [done |]. split; [done |].
      split; [intros; apply Hsome; eauto |].
      split; [done |].
      intros k t' Hk.
      apply (threads_insert_lookup _ _ _ _ _ _ Hi) in Hk as [[-> ->]|[Hne Hk]];
        [| by apply Hts].
      repeat split; cbn; try done. tauto.
    + case_decide; done.
    + (* hit *)
      destruct Hph as (Hc & Htr & Hst).
      destruct (cache (c_sc c) !! Q) as [s|] eqn:Hs; [| done].
      cbn in Hst. injection Hst as Hst.
      exists (Cached ctx). cbn [move c_sc c_holder c_world c_threads time_Now].
      rewrite length_insert.
      split; [done |]. split; [done |].
      split; [intros; apply Hsome; eauto |].
      split; [cbn; by rewrite lookup_insert_eq, Hst |].
      intros k t' Hk.
      apply (threads_insert_lookup _ _ _ _ _ _ Hi) in Hk as [[-> ->]|[Hne Hk]];
        [| by apply Hts].
      repeat split; cbn; try done. rewrite Hst. tauto.
  - (* Prepare *)
    assert (Hh : c_holder c = Some i) by tauto.
    destruct ph as [|j ctx|ctx]; cbn in Hph, Hpc;
      [| by case_decide | by destruct Hpc as [|[|[|]]]].
    destruct Hph as [Htr Hnone].
    unfold call. rewrite Hprep, Hq, Htr, (prepares _ Hctx).
    exists (Storing i (t_ctx t)). cbn [move c_sc c_holder c_world c_threads trace].
    rewrite length_insert.
    split; [done |]. split; [done |].
    split; [intros; apply Hsome; eauto |].
    split; [done |].
    intros k t' Hk.
    apply (threads_insert_lookup _ _ _ _ _ _ Hi) in Hk as [[-> ->]|[Hne Hk]].
    + repeat split; cbn; try done. by case_decide.
    + destruct (Hts k t' Hk) as (? & ? & Hl & Hpk).
      split; [done |]. split; [done |]. split; [done |].
      cbn. case_decide; [done |].
      destruct (Hothers k t' Hne Hk Hh) as [|[r Hr]]; [done |].
      cbn in Hpk. rewrite Hr in Hpk. by destruct Hpk as [|[|]].
  - (* Store *)
    assert (Hh : c_holder c = Some i) by tauto.
    destruct ph as [|j ctx|ctx]; cbn in Hph, Hpc;
      [by destruct Hpc as [|[|]] | | by destruct Hpc as [|[|[|]]]].
    destruct Hph as (Hc & Htr & Hnone & Hj).
    assert (j = i) as -> by congruence.
    rewrite decide_True in Hpc by done. injection Hpc as ->.
    exists (Cached ctx). cbn [move c_sc c_holder c_world c_threads time_Now].
    rewrite length_insert.
    split; [done |]. split; [done |].
    split; [intros; apply Hsome; eauto |].
    split; [cbn; by rewrite Hq, lookup_insert_eq |].
    intros k t' Hk.
    apply (threads_insert_lookup _ _ _ _ _ _ Hi) in Hk as [[-> ->]|[Hne Hk]].
    + repeat split; cbn; try done. tauto.
    + destruct (Hts k t' Hk) as (? & ? & Hl & Hpk).
      split; [done |]. split; [done |]. split; [done |].
      cbn in *. rewrite decide_False in Hpk by done. tauto.
  - (* Unlock *)
    assert (Hh : c_holder c = Some i) by tauto.
    destruct ph as [|j ctx|ctx]; cbn in Hph, Hpc;
      [by destruct Hpc as [|[|]] | by case_decide |].
    destruct Hpc as [|[|[[= ->]|]]]; try done.
    exists (Cached ctx). cbn [move c_sc c_holder c_world c_threads].
    rewrite length_insert.
    split; [done |]. split; [done |]. split; [done |]. split; [done |].
    intros k t' Hk.
    apply (threads_insert_lookup _ _ _ _ _ _ Hi) in Hk as [[-> ->]|[Hne Hk]].
    + repeat split; cbn; try done. tauto.
    + destruct (Hts k t' Hk) as (? & ? & Hl & Hpk).
      split; [done |]. split; [done |]. split; [| done].
      destruct (Hothers k t' Hne Hk Hh) as [->|[r ->]]; done.
  - by exists ph.
Qed.
Lemma inv_act a c : inv sc0 w0 Q ctxs st c -> inv sc0 w0 Q ctxs st (act a c).
Proof.
  destruct a as [i|d]; [apply inv_step |].
  intros (ph & ? & ? & ? & Hph & ?). exists ph.
  split; [done |]. split; [done |]. split; [done |]. split; [| done].
  by destruct ph.
Qed.

Lemma inv_run sched c : inv sc0 w0 Q ctxs st c -> inv sc0 w0 Q ctxs st (run sched c).
Proof.
  revert c. induction sched as [|a sched IH]; intros c Hc; [done |].
  cbn. apply IH, inv_act, Hc.
Qed.

(** What the invariant says of the calls made and of the callers that
    returned. *)
Lemma inv_at_most_one c :
  inv sc0 w0 Q ctxs st c ->
  trace (c_world c) = trace w0 \/
  exists ctx, ctx ∈ ctxs /\ trace (c_world c) = trace w0 ++ [EvPrepareContext ctx Q].
Proof.
  intros (ph & _ & _ & _ & Hph & _).
  destruct ph as [|j ctx|ctx]; cbn in Hph; [left | right; exists ctx ..]; tauto.
Qed.

Lemma inv_returned c k t r :
  inv sc0 w0 Q ctxs st c ->
  c_threads c !! k = Some t -> returned t = Some r ->
  r = Ok st /\
  stmt <$> cache (c_sc c) !! Q = Some st /\
  exists ctx, ctx ∈ ctxs /\ trace (c_world c) = trace w0 ++ [EvPrepareContext ctx Q].
Proof.
  intros (ph & _ & _ & _ & Hph & Hts) Hk Hr.
  destruct (Hts k t Hk) as (_ & _ & _ & Hpc).
  unfold returned in Hr. destruct (t_pc t) eqn:Hp; try done. injection Hr as ->.
  destruct ph as [|j ctx|ctx]; cbn in Hph, Hpc.
  - by destruct Hpc as [|[|]].
  - by case_decide.
  - destruct Hpc as [|[|[|[= ->]]]]; try done.
    split; [done |]. split; [tauto |]. exists ctx. tauto.
Qed.

(** No deadlock: while a caller has not returned, some caller can
    move. *)
Lemma inv_progress c :
  inv sc0 w0 Q ctxs st c -> ~ all_returned c -> exists i, enabled i c = true.
Proof.
  intros (ph & _ & _ & Hhold & _ & Hts) Hnot.
  destruct (c_holder c) as [j|] eqn:Hh.
  - destruct (Hhold j eq_refl) as [t Hj]. exists j. unfold enabled. rewrite Hj.
    destruct (Hts j t Hj) as (_ & _ & Hl & _).
    destruct (t_pc t); cbn in Hl; try done;
      by destruct Hl as [_ Hl]; specialize (Hl eq_refl).
  - apply not_Forall_Exists in Hnot; [| apply _].
    apply Exists_exists in Hnot as (t & Hin & Hnr).
    apply list_elem_of_lookup in Hin as [k Hk].
    exists k. unfold enabled. rewrite Hk, Hh.
    destruct (Hts k t Hk) as (_ & _ & Hl & _).
    destruct (t_pc t) eqn:Hp; cbn in Hl; try done;
      try (by destruct Hl as [Hl _]; specialize (Hl eq_refl)).
    exfalso. apply Hnr. unfold returned. rewrite Hp. eauto.
Qed.

(** Every run can be continued until all callers have returned. *)
Lemma inv_completes n c :
  (work_left c <= n)%nat -> inv sc0 w0 Q ctxs st c ->
  exists rest, all_returned (run rest c).
Proof.
  revert c. induction n as [|n IH]; intros c Hn Hc;
    (destruct (decide (all_returned c)) as [Hall|Hnot]; [by exists [] |]);
    destruct (inv_progress c Hc Hnot) as [i Hi];
    pose proof (step_work_left i c Hi) as Hlt.
  - lia.
  - destruct (IH (step i c)) as [rest Hrest]; [lia | by apply inv_step |].
    by exists (Run i :: rest).
Qed.
End Callers.

(** C9 (amended). Callers of [PrepareContext] with one text that the
    cacher does not hold, the text being one the preparer prepares (as
    [st]), under any schedule: at every moment at most one prepare call
    has reached the preparer; a caller that has returned has received
    [st], which the cacher then holds, and exactly one prepare call has
    been made; and every run can go on until all callers have
    returned. *)
Theorem concurrent_prepare_once sc w Q ctxs st sched :
  cache sc !! Q = None ->
  (forall ctx, ctx ∈ ctxs -> PrepareContext (prep sc) ctx Q (trace w) = Ok st) ->
  let c := run sched (start sc w Q ctxs) in
  (trace (c_world c) = trace w \/
   exists ctx, ctx ∈ ctxs /\ trace (c_world c) = trace w ++ [EvPrepareContext ctx Q]) /\
  (forall k t r, c_threads c !! k = Some t -> returned t = Some r ->
     r = Ok st /\
     stmt <$> cache (c_sc c) !! Q = Some st /\
     exists ctx, ctx ∈ ctxs /\ trace (c_world c) = trace w ++ [EvPrepareContext ctx Q]) /\
  length (c_threads c) = length ctxs /\
  (exists rest, all_returned (run (sched ++ rest) (start sc w Q ctxs))).
Proof.
  intros Hmiss Hprep c.
  assert (Hc : inv sc w Q ctxs st c) by (by apply inv_run, inv_start).
  split; [by eapply inv_at_most_one |].
  split; [intros k t r; by eapply inv_returned |].
  split; [by destruct Hc as (? & ? & ? & ?) |].
  destruct (inv_completes sc w Q ctxs st Hprep (work_left c) c (le_n _) Hc) as [rest Hrest].
  exists rest. unfold run in *. by rewrite foldl_app.
Qed.

Lemma concurrent_prepare_once_witness :
  let c := run interleaved (start (NewStmtCacher freshPreparer) w0 "SELECT 1" twoCallers) in
  returned <$> c_threads c = [Some (Ok (sampleStmt 1)); Some (Ok (sampleStmt 1))] /\
  (trace (c_world c) = [] \/
   exists ctx, ctx ∈ twoCallers /\ trace (c_world c) = [EvPrepareContext ctx "SELECT 1"]).
Proof.
  intros c.
  destruct (concurrent_prepare_once (NewStmtCacher freshPreparer) w0 "SELECT 1" twoCallers
              (sampleStmt 1) interleaved eq_refl (fun ctx _ => eq_refl))
    as (Hone & Hret & _ & _).
  split; [| exact Hone].
  destruct (Hret 0%nat _ _ eq_refl eq_refl) as [H0 _].
  destruct (Hret 1%nat _ _ eq_refl eq_refl) as [H1 _].
  reflexivity.
Defined.

(** C9 as it is stated fails when the preparer fails: with two callers
    that run one after the other on a text the database rejects, two
    prepare calls reach the preparer and no caller receives a
    statement. *)
Lemma concurrent_prepare_failing :
  let c := run oneAfterTheOther
               (start (NewStmtCacher failingPreparer) w0 "SELEC 1" twoCallers) in
  all_returned c /\
  prepare_calls (trace (c_world c)) = [(Background, "SELEC 1"); (WithCancel 1, "SELEC 1")] /\
  returned <$> c_threads c
    = [Some (Err (errorString "syntax error")); Some (Err (errorString "syntax error"))] /\
  ~ (length (prepare_calls (trace (c_world c))) = 1%nat /\
     exists h, Forall (fun t => returned t = Some (Ok h)) (c_threads c)).
Proof.
  intros c. split; [| split; [| split]].
  - repeat constructor; by eexists.
  - reflexivity.
  - reflexivity.
  - intros [Hlen _]. vm_compute in Hlen. discriminate.
Qed.

(** ** More on one call of the cacher *)

(** X1. [PrepareContext] on one text leaves the entry of every other
    text as it was, whether it hits, prepares or fails; the preparer of
    the cacher stays the same. *)
Theorem PrepareContext_other_texts ctx q sc w Q :
  Q <> q ->
  cache (stmtCacher_PrepareContext ctx q sc w).1.2 !! Q = cache sc !! Q /\
  prep (stmtCacher_PrepareContext ctx q sc w).1.2 = prep sc.
Proof.
  intros Hne.
  destruct (PrepareContext_cases ctx q sc w)
    as [(s & Hs & ->)|[(st & Hn & ->)|(e & Hn & ->)]]; cbn;
    rewrite ?lookup_insert_ne by done; done.
Qed.

Lemma PrepareContext_other_texts_witness :
  cache (stmtCacher_PrepareContext Background "SELECT 1" twoEntries fiveHours).1.2
    !! "SELECT old" = Some {| stmt := sampleStmt 1; lastUse := 0 |}.
Proof.
  rewrite (proj1 (PrepareContext_other_texts Background "SELECT 1" twoEntries fiveHours
                    "SELECT old" ltac:(discriminate))).
  reflexivity.
Defined.

(** X2. When [PrepareContext] returns a statement, by a hit or by a
    fresh preparation, the map holds that statement under the text,
    last used at the time of the call. *)
Theorem PrepareContext_caches_result ctx q sc w st :
  (stmtCacher_PrepareContext ctx q sc w).1.1 = Ok st ->
  cache (stmtCacher_PrepareContext ctx q sc w).1.2 !! q
  = Some {| stmt := st; lastUse := now w |}.
Proof.
  destruct (PrepareContext_cases ctx q sc w)
    as [(s & Hs & ->)|[(st' & Hn & ->)|(e & Hn & ->)]]; cbn; [| | done];
    intros [= <-]; by rewrite lookup_insert_eq.
Qed.

Lemma PrepareContext_caches_result_witness :
  cache (stmtCacher_PrepareContext Background "SELECT 1" (NewStmtCacher freshPreparer)
           fiveHours).1.2 !! "SELECT 1"
  = Some {| stmt := sampleStmt 1; lastUse := 5 * time_Hour |}.
Proof.
  apply (PrepareContext_caches_result Background "SELECT 1" (NewStmtCacher freshPreparer)
           fiveHours (sampleStmt 1)).
  reflexivity.
Defined.

Lemma ExecContext_unfold ctx query args sc w :
  stmtCacher_ExecContext ctx query args sc w =
    let '(r, sc', w') := stmtCacher_PrepareContext ctx query sc w in
    match r with
    | Err e => (Err e, sc', w')
    | Ok st =>
        (Stmt_ExecContext st ctx args (trace w'), sc',
         after_call (EvStmtExecContext (Stmt_id st) ctx args) w')
    end.
Proof.
  unfold stmtCacher_ExecContext. cbv [mbind M_bind bind].
  destruct (stmtCacher_PrepareContext ctx query sc w) as [[[st|e] sc'] w']; done.
Qed.

Lemma QueryContext_unfold ctx query args sc w :
  stmtCacher_QueryContext ctx query args sc w =
    let '(r, sc', w') := stmtCacher_PrepareContext ctx query sc w in
    match r with
    | Err e => (Err e, sc', w')
    | Ok st =>
        (rowsResult (Stmt_QueryContext st ctx args (trace w')), sc',
         after_call (EvStmtQueryContext (Stmt_id st) ctx args) w')
    end.
Proof.
  unfold stmtCacher_QueryContext. cbv [mbind M_bind bind].
  destruct (stmtCacher_PrepareContext ctx query sc w) as [[[st|e] sc'] w']; done.
Qed.

(** X3. On a text that is cached, [ExecContext], [QueryContext] and
    [QueryRowContext] make one outside call each, to the cached
    statement, with the context and the arguments as they were given;
    the preparer is not reached, and the entry is marked as used now. *)
Theorem cached_statement_is_reused ctx q args sc w s :
  cache sc !! q = Some s ->
  stmtCacher_ExecContext ctx q args sc w
  = (Stmt_ExecContext (stmt s) ctx args (trace w),
     touch q (stmt s) (now w) sc,
     after_call (EvStmtExecContext (Stmt_id (stmt s)) ctx args) w) /\
  stmtCacher_QueryContext ctx q args sc w
  = (rowsResult (Stmt_QueryContext (stmt s) ctx args (trace w)),
     touch q (stmt s) (now w) sc,
     after_call (EvStmtQueryContext (Stmt_id (stmt s)) ctx args) w) /\
  stmtCacher_QueryRowContext ctx q args sc w
  = (rowOfSql (Stmt_QueryRowContext (stmt s) ctx args (trace w)),
     touch q (stmt s) (now w) sc,
     after_call (EvStmtQueryRowContext (Stmt_id (stmt s)) ctx args) w).
Proof.
  intros Hs.
  rewrite ExecContext_unfold, QueryContext_unfold, QueryRowContext_unfold.
  by rewrite (PrepareContext_hit _ _ _ _ _ Hs).
Qed.

Lemma cached_statement_is_reused_witness :
  trace (stmtCacher_ExecContext (WithCancel 3) "SELECT new" [VInt 1; VStr "x"]
           twoEntries fiveHours).2
  = [EvStmtExecContext 2 (WithCancel 3) [VInt 1; VStr "x"]].
Proof.
  rewrite (proj1 (cached_statement_is_reused (WithCancel 3) "SELECT new" [VInt 1; VStr "x"]
                    twoEntries fiveHours _ eq_refl)).
  reflexivity.
Defined.

(** X4. On a text that is not cached and that the preparer rejects, the
    three operations return the preparer's error ([QueryRowContext] in
    the row it returns), touch no statement, and leave the cacher as it
    was: the one outside call is the prepare call. *)
Theorem rejected_text_reaches_no_statement ctx q args sc w e :
  cache sc !! q = None ->
  PrepareContext (prep sc) ctx q (trace w) = Err e ->
  stmtCacher_ExecContext ctx q args sc w
  = (Err e, sc, after_call (EvPrepareContext ctx q) w) /\
  stmtCacher_QueryContext ctx q args sc w
  = (Err e, sc, after_call (EvPrepareContext ctx q) w) /\
  stmtCacher_QueryRowContext ctx q args sc w
  = (RowPtr (mkRow nilRowScanner (Some e)), sc, after_call (EvPrepareContext ctx q) w).
Proof.
  intros Hn He.
  rewrite ExecContext_unfold, QueryContext_unfold, QueryRowContext_unfold.
  by rewrite (PrepareContext_miss_err _ _ _ _ _ Hn He).
Qed.

Lemma rejected_text_reaches_no_statement_witness :
  stmtCacher_ExecContext Background "SELEC 1" [VInt 1] (NewStmtCacher failingPreparer) w0
  = (Err (errorString "syntax error"), NewStmtCacher failingPreparer,
     {| now := 0; trace := [EvPrepareContext Background "SELEC 1"] |}).
Proof.
  apply (rejected_text_reaches_no_statement Background "SELEC 1" [VInt 1]
           (NewStmtCacher failingPreparer) w0 (errorString "syntax error") eq_refl eq_refl).
Defined.

(** X5. On a text that is not cached and that the preparer prepares,
    the three operations make two outside calls, the prepare call and
    then the call to the new statement with the context and the
    arguments as given, and the statement is cached. *)
Theorem new_text_is_prepared_then_run ctx q args sc w st :
  cache sc !! q = None ->
  PrepareContext (prep sc) ctx q (trace w) = Ok st ->
  let w1 := after_call (EvPrepareContext ctx q) w in
  stmtCacher_ExecContext ctx q args sc w
  = (Stmt_ExecContext st ctx args (trace w1), touch q st (now w) sc,
     after_call (EvStmtExecContext (Stmt_id st) ctx args) w1) /\
  stmtCacher_QueryContext ctx q args sc w
  = (rowsResult (Stmt_QueryContext st ctx args (trace w1)), touch q st (now w) sc,
     after_call (EvStmtQueryContext (Stmt_id st) ctx args) w1) /\
  stmtCacher_QueryRowContext ctx q args sc w
  = (rowOfSql (Stmt_QueryRowContext st ctx args (trace w1)), touch q st (now w) sc,
     after_call (EvStmtQueryRowContext (Stmt_id st) ctx args) w1).
Proof.
  intros Hn Hp w1.
  rewrite ExecContext_unfold, QueryContext_unfold, QueryRowContext_unfold.
  by rewrite (PrepareContext_miss_ok _ _ _ _ _ Hn Hp).
Qed.

Lemma new_text_is_prepared_then_run_witness :
  trace (stmtCacher_QueryContext Background "SELECT 1" [VInt 4]
           (NewStmtCacher freshPreparer) w0).2
  = [EvPrepareContext Background "SELECT 1"; EvStmtQueryContext 1 Background [VInt 4]].
Proof.
  rewrite (proj1 (proj2 (new_text_is_prepared_then_run Background "SELECT 1" [VInt 4]
                           (NewStmtCacher freshPreparer) w0 (sampleStmt 1) eq_refl eq_refl))).
  reflexivity.
Defined.

(** ** More on the cacher over time *)

Lemma prepare_calls_app h1 h2 :
  prepare_calls (h1 ++ h2) = prepare_calls h1 ++ prepare_calls h2.
Proof. apply omap_app. Qed.

Lemma prepare_calls_close_calls l : prepare_calls (close_calls l) = [].
Proof. induction l as [|kv l IH]; cbn; done. Qed.

(** What one operation adds to the history. *)
Lemma PrepareContext_trace ctx q sc w :
  trace (stmtCacher_PrepareContext ctx q sc w).2 = trace w \/
  trace (stmtCacher_PrepareContext ctx q sc w).2 = trace w ++ [EvPrepareContext ctx q].
Proof.
  destruct (PrepareContext_cases ctx q sc w)
    as [(s & Hs & ->)|[(st & Hn & ->)|(e & Hn & ->)]]; cbn; auto.
Qed.

Lemma PrepareContext_closes_nothing ctx q sc w :
  closed_stmts (trace (stmtCacher_PrepareContext ctx q sc w).2) = closed_stmts (trace w).
Proof.
  destruct (PrepareContext_trace ctx q sc w) as [->| ->]; [done |].
  by rewrite closed_stmts_app, app_nil_r.
Qed.

(** X6. Statements are closed by the janitor only, and the preparer is
    reached by the operations only: no operation of the cacher ever
    closes a statement, and a tick makes no prepare call. *)
Theorem only_ticks_close o st :
  (is_tick o = false ->
   closed_stmts (trace (run_op o st).2) = closed_stmts (trace st.2)) /\
  (is_tick o = true ->
   prepare_calls (trace (run_op o st).2) = prepare_calls (trace st.2)).
Proof.
  destruct st as [sc w]. split; intros Ho.
  - destruct o as [ctx q|ctx q args|ctx q args|ctx q args|age|d]; try done; cbn.
    + pose proof (PrepareContext_closes_nothing ctx q sc w) as H.
      by destruct (stmtCacher_PrepareContext ctx q sc w) as [[? ?] ?].
    + pose proof (PrepareContext_closes_nothing ctx q sc w) as H.
      rewrite ExecContext_unfold.
      destruct (stmtCacher_PrepareContext ctx q sc w) as [[[?|?] ?] ?]; cbn in *; [| done].
      by rewrite closed_stmts_app, app_nil_r.
    + pose proof (PrepareContext_closes_nothing ctx q sc w) as H.
      rewrite QueryContext_unfold.
      destruct (stmtCacher_PrepareContext ctx q sc w) as [[[?|?] ?] ?]; cbn in *; [| done].
      by rewrite closed_stmts_app, app_nil_r.
    + pose proof (PrepareContext_closes_nothing ctx q sc w) as H.
      rewrite QueryRowContext_unfold.
      destruct (stmtCacher_PrepareContext ctx q sc w) as [[[?|?] ?] ?]; cbn in *; [| done].
      by rewrite closed_stmts_app, app_nil_r.
  - destruct o as [ctx q|ctx q args|ctx q args|ctx q args|age|d]; try done.
    cbn. unfold startCleanup_tick. rewrite cleanup_range_eq. cbn.
    by rewrite prepare_calls_app, prepare_calls_close_calls, app_nil_r.
Qed.

Lemma only_ticks_close_witness :
  closed_stmts (trace (run_op (OpExecContext Background "SELECT old" []) (twoEntries, fiveHours)).2)
  = [] /\
  prepare_calls (trace (run_op (OpTick maxAge) (twoEntries, fiveHours)).2) = [].
Proof.
  split.
  - apply (proj1 (only_ticks_close (OpExecContext Background "SELECT old" [])
                    (twoEntries, fiveHours)) eq_refl).
  - apply (proj2 (only_ticks_close (OpTick maxAge) (twoEntries, fiveHours)) eq_refl).
Defined.

(** X7. A second tick at the same instant finds nothing to do: it
    leaves the cacher and the world as the first tick left them, in
    whatever orders the two ticks range over the map. *)
Theorem second_tick_does_nothing age order order' sc w :
  order ≡ₚ map_to_list (cache sc) ->
  order' ≡ₚ map_to_list (cache (cleanup_range age order sc w).1) ->
  cleanup_range age order' (cleanup_range age order sc w).1 (cleanup_range age order sc w).2
  = cleanup_range age order sc w.
Proof.
  intros Hperm Hperm'.
  assert (Hlook := fun k => cleanup_range_evicts age order sc w k Hperm).
  assert (Hnow : now (cleanup_range age order sc w).2 = now w)
    by (by rewrite cleanup_range_eq).
  destruct (cleanup_range age order sc w) as [sc' w'] eqn:E. cbn in *.
  rewrite cleanup_range_eq, Hnow.
  assert (Hnone : evicted age (now w) order' = []).
  { unfold evicted. apply elem_of_nil_inv. intros [k v] [Hexp Hin]%list_elem_of_filter.
    cbn in Hexp. rewrite Hperm' in Hin. apply elem_of_map_to_list in Hin.
    rewrite Hlook in Hin. destruct (cache sc !! k) as [v'|]; [| done].
    case_decide; [done |]. by simplify_eq. }
  rewrite Hnone. cbn. rewrite with_cache_id, app_nil_r. f_equal.
  destruct w'; cbn in *. by subst.
Qed.

Lemma second_tick_does_nothing_witness :
  let once := startCleanup_tick maxAge twoEntries fiveHours in
  startCleanup_tick maxAge once.1 once.2 = once.
Proof.
  intros once.
  apply (second_tick_does_nothing maxAge (map_to_list (cache twoEntries))
           (map_to_list (cache once.1)) twoEntries fiveHours); reflexivity.
Defined.

(** X8. A text whose entry has expired is prepared anew after the tick:
    the tick closes the statement handed out before, and the next call of
    [PrepareContext] on the text reaches the preparer again and returns
    what it gives now. *)
Theorem expired_text_is_prepared_again age order sc w ctx q v :
  minDuration <= age < maxDuration ->
  order ≡ₚ map_to_list (cache sc) ->
  cache sc !! q = Some v ->
  age < now w - lastUse v ->
  let tick := cleanup_range age order sc w in
  EvStmtClose (Stmt_id (stmt v)) ∈ trace tick.2 /\
  cache tick.1 !! q = None /\
  trace (stmtCacher_PrepareContext ctx q tick.1 tick.2).2
  = trace tick.2 ++ [EvPrepareContext ctx q] /\
  (stmtCacher_PrepareContext ctx q tick.1 tick.2).1.1
  = PrepareContext (prep sc) ctx q (trace tick.2).
Proof.
  intros Hage Hperm Hq Hidle tick.
  assert (Hexp : expired age (now w) v) by (by apply expired_iff).
  assert (Hnone : cache tick.1 !! q = None).
  { unfold tick. rewrite cleanup_range_evicts, Hq by done. by rewrite decide_True. }
  assert (Hprep : prep tick.1 = prep sc) by (unfold tick; by rewrite cleanup_range_eq).
  split; [| split; [done |]].
  - unfold tick. rewrite cleanup_range_eq. cbn. apply elem_of_app. right.
    unfold close_calls, evicted. apply list_elem_of_fmap. exists (q, v). split; [done |].
    apply list_elem_of_filter. split; [done |].
    rewrite Hperm. by apply elem_of_map_to_list.
  - rewrite <- Hprep.
    destruct (PrepareContext (prep tick.1) ctx q (trace tick.2)) as [st|e] eqn:Hp.
    + by rewrite (PrepareContext_miss_ok _ _ _ _ _ Hnone Hp).
    + by rewrite (PrepareContext_miss_err _ _ _ _ _ Hnone Hp).
Qed.

Lemma expired_text_is_prepared_again_witness :
  let tick := cleanup_range maxAge (map_to_list (cache twoEntries)) twoEntries fiveHours in
  trace (stmtCacher_PrepareContext Background "SELECT old" tick.1 tick.2).2
  = [EvStmtClose 1; EvPrepareContext Background "SELECT old"].
Proof.
  intros tick.
  assert (Hage : minDuration <= maxAge < maxDuration) by (by vm_compute).
  destruct (expired_text_is_prepared_again maxAge (map_to_list (cache twoEntries))
              twoEntries fiveHours Background "SELECT old"
              {| stmt := sampleStmt 1; lastUse := 0 |} Hage (reflexivity _) eq_refl
              ltac:(by vm_compute)) as (_ & _ & Htr & _).
  etrans; [exact Htr | reflexivity].
Defined.

(** X9. Use renews an entry: after [PrepareContext] has returned a
    statement for a text, a tick that comes no later than the maximal age
    after the call keeps the entry. *)
Theorem used_entry_survives_tick ctx q sc w st age d :
  minDuration <= age ->
  (stmtCacher_PrepareContext ctx q sc w).1.1 = Ok st ->
  Z.of_N d <= age ->
  let used := stmtCacher_PrepareContext ctx q sc w in
  cache (startCleanup_tick age used.1.2 (elapse d used.2)).1 !! q
  = Some {| stmt := st; lastUse := now w |}.
Proof.
  intros Hmin Hok Hd used.
  assert (Hused : cache used.1.2 !! q = Some {| stmt := st; lastUse := now w |}
                  /\ now used.2 = now w).
  { unfold used. revert Hok. destruct (PrepareContext_cases ctx q sc w)
      as [(s & Hs & ->)|[(st' & Hn & ->)|(e & Hn & ->)]]; cbn; [| | done];
      intros [= <-]; by rewrite lookup_insert_eq. }
  destruct Hused as [Hentry Hnow].
  apply fresh_entry_survives_tick; [done | done |].
  cbn. lia.
Qed.

Lemma used_entry_survives_tick_witness :
  let used := stmtCacher_PrepareContext Background "SELECT old" twoEntries fiveHours in
  cache (startCleanup_tick maxAge used.1.2 (elapse 14400000000000 used.2)).1 !! "SELECT old"
  = Some {| stmt := sampleStmt 1; lastUse := 5 * time_Hour |}.
Proof.
  intros used.
  apply (used_entry_survives_tick Background "SELECT old" twoEntries fiveHours (sampleStmt 1)
           maxAge 14400000000000); [by vm_compute | reflexivity | by vm_compute].
Defined.

Lemma run_ops_app ops1 ops2 st : run_ops (ops1 ++ ops2) st = run_ops ops2 (run_ops ops1 st).
Proof. apply foldl_app. Qed.

(** What an operation that asks for a text does to the set of cached
    texts and to the prepare calls, over a preparer that prepares every
    text. *)
Lemma PrepareContext_text ctx q sc w :
  always_prepares (prep sc) ->
  let r := stmtCacher_PrepareContext ctx q sc w in
  prep r.1.2 = prep sc /\
  (exists st, r.1.1 = Ok st) /\
  (((q ∈ dom (cache sc)) /\ dom (cache r.1.2) = dom (cache sc) /\
    prepare_calls (trace r.2) = prepare_calls (trace w)) \/
   ((q ∉ dom (cache sc)) /\ dom (cache r.1.2) = {[q]} ∪ dom (cache sc) /\
    prepare_calls (trace r.2) = prepare_calls (trace w) ++ [(ctx, q)])).
Proof.
  intros Hp.
  destruct (PrepareContext_cases ctx q sc w)
    as [(s & Hs & ->)|[(st & Hn & ->)|(e & Hn & E)]]; cbn.
  - split; [done |]. split; [eauto |]. left.
    assert (q ∈ dom (cache sc)) by (apply elem_of_dom; eauto).
    split; [done |]. split; [| done]. rewrite dom_insert_L. set_solver.
  - split; [done |]. split; [eauto |]. right.
    split; [by apply not_elem_of_dom |]. split; [by rewrite dom_insert_L |].
    by rewrite prepare_calls_app.
  - destruct (Hp ctx q (trace w)) as [st Hst].
    rewrite (PrepareContext_miss_ok _ _ _ _ _ Hn Hst) in E. done.
Qed.

Lemma run_op_text o sc w q :
  always_prepares (prep sc) -> op_text o = Some q ->
  let st := run_op o (sc, w) in
  prep st.1 = prep sc /\
  (((q ∈ dom (cache sc)) /\ dom (cache st.1) = dom (cache sc) /\
    prepare_calls (trace st.2) = prepare_calls (trace w)) \/
   ((q ∉ dom (cache sc)) /\ dom (cache st.1) = {[q]} ∪ dom (cache sc) /\
    exists ctx, prepare_calls (trace st.2) = prepare_calls (trace w) ++ [(ctx, q)])).
Proof.
  intros Hp Ho.
  destruct o as [ctx q'|ctx q' args|ctx q' args|ctx q' args|age|d]; try done;
    injection Ho as ->;
    destruct (PrepareContext_text ctx q sc w Hp) as (H1 & (st & Hst) & H2);
    cbn [run_op];
    [| rewrite ExecContext_unfold | rewrite QueryContext_unfold
     | rewrite QueryRowContext_unfold];
    destruct (stmtCacher_PrepareContext ctx q sc w) as [[r sc'] w']; cbn in *;
    try subst r; cbn; rewrite ?prepare_calls_app, ?app_nil_r;
    (split; [done |]); destruct H2 as [(? & ? & ?)|(? & ? & ?)]; eauto 10.
Qed.

Lemma run_op_no_text o sc w :
  is_tick o = false -> op_text o = None ->
  (run_op o (sc, w)).1 = sc /\ trace (run_op o (sc, w)).2 = trace w.
Proof. destruct o; done. Qed.

Lemma ops_without_ticks p w ops :
  always_prepares p ->
  Forall (fun o => is_tick o = false) ops ->
  let st := run_ops ops (NewStmtCacher p, w) in
  prep st.1 = p /\
  exists calls,
    prepare_calls (trace st.2) = prepare_calls (trace w) ++ calls /\
    NoDup calls.*2 /\
    dom (cache st.1) = list_to_set calls.*2 /\
    forall q, q ∈ calls.*2 <-> Some q ∈ op_text <$> ops.
Proof.
  intros Hp. induction ops as [|o ops IH] using rev_ind; intros Hops st.
  - split; [done |]. exists []. cbn. rewrite app_nil_r.
    split; [done |]. split; [constructor |]. split; [done |].
    intros q. split; intros ?%elem_of_nil; done.
  - apply Forall_app in Hops as [Hops Ho]. rewrite Forall_singleton in Ho.
    destruct (IH Hops) as (Hprep & calls & Htr & Hnd & Hdom & Hq).
    subst st. rewrite run_ops_app. cbn [run_ops foldl].
    destruct (run_ops ops (NewStmtCacher p, w)) as [sc' w'] eqn:E. cbn in Hprep, Htr, Hdom.
    assert (Hp' : always_prepares (prep sc')) by (by rewrite Hprep).
    assert (Hin : forall q, Some q ∈ op_text <$> ops ++ [o] <->
                            q ∈ calls.*2 \/ op_text o = Some q).
    { intros q. rewrite fmap_app, elem_of_app, Hq. cbn.
      rewrite list_elem_of_singleton. naive_solver. }
    destruct (op_text o) as [q|] eqn:Ho'.
    + destruct (run_op_text o sc' w' q Hp' Ho')
        as (Hprep' & [(Hold & Hdom' & Htr')|(Hnew & Hdom' & ctx & Htr')]).
      * split; [congruence |]. exists calls.
        split; [congruence |]. split; [done |]. split; [congruence |].
        intros q'. rewrite Hin. split; [tauto |]. intros [?|[= <-]]; [done |].
        rewrite Hdom in Hold. by apply elem_of_list_to_set in Hold.
      * split; [congruence |]. exists (calls ++ [(ctx, q)]).
        split; [by rewrite Htr', Htr, app_assoc |].
        rewrite fmap_app. change ([(ctx, q)].*2) with [q].
        split.
        { apply NoDup_app. split; [done |]. split; [| apply NoDup_singleton].
          intros x Hx ->%list_elem_of_singleton. apply Hnew.
          rewrite Hdom. by apply elem_of_list_to_set. }
        split.
        { rewrite Hdom', Hdom, list_to_set_app_L. set_solver. }
        intros q'. rewrite Hin, elem_of_app, list_elem_of_singleton. naive_solver.
    + destruct (run_op_no_text o sc' w' Ho Ho') as [Hsc Htr'].
      split; [by rewrite Hsc |]. exists calls.
      rewrite Hsc, Htr'. split; [done |]. split; [done |]. split; [done |].
      intros q'. rewrite Hin. naive_solver.
Qed.

(** X10. Without eviction every text is prepared exactly once: over a
    preparer that prepares every text, and whatever operations are made
    on a new cacher while no tick comes, the prepare calls made are one
    for each text that was asked for, and these texts are the ones the
    map holds. *)
Theorem each_text_prepared_once p w ops :
  always_prepares p ->
  Forall (fun o => is_tick o = false) ops ->
  let st := run_ops ops (NewStmtCacher p, w) in
  exists calls,
    prepare_calls (trace st.2) = prepare_calls (trace w) ++ calls /\
    NoDup calls.*2 /\
    dom (cache st.1) = list_to_set calls.*2 /\
    forall q, q ∈ calls.*2 <-> Some q ∈ op_text <$> ops.
Proof. intros Hp Hops. by apply ops_without_ticks. Qed.

Lemma freshPreparer_always_prepares : always_prepares freshPreparer.
Proof. intros ctx q h. by eexists. Qed.

Lemma each_text_prepared_once_witness :
  exists calls,
    prepare_calls (trace (run_ops someOps (NewStmtCacher freshPreparer, w0)).2) = calls /\
    NoDup calls.*2.
Proof.
  destruct (each_text_prepared_once freshPreparer w0 someOps
              freshPreparer_always_prepares ltac:(by repeat constructor))
    as (calls & Htr & Hnd & _).
  exists calls. split; [exact Htr | exact Hnd].
Defined.

(** ** More on [wrapRunner] *)

Lemma assertRunner_custom c m :
  assertRunner (custom c) = Some m ->
  c_Queryer c = Some (R_Queryer m) /\ c_QueryerContext c = Some (R_QueryerContext m) /\
  c_QueryRower c = Some (R_QueryRower m) /\
  c_QueryRowerContext c = Some (R_QueryRowerContext m) /\
  R_Execer m = c_Execer c /\ R_ExecerContext m = c_ExecerContext c.
Proof.
  unfold assertRunner. cbn.
  destruct (c_Queryer c), (c_QueryerContext c), (c_QueryRower c), (c_QueryRowerContext c);
    intros [= <-]; done.
Qed.

Lemma assertRunner_None c :
  assertRunner (custom c) = None ->
  wrapRunner (custom c) = otherRunner (custom c).
Proof. intros H. unfold wrapRunner. cbn. by rewrite H. Qed.

(** X11. Whatever the handle is, [Exec] and [ExecContext] of the
    runner that [wrapRunner] returns are one call to the handle's own
    method, with the text and the arguments unchanged, and return what
    it returns. *)
Theorem wrapRunner_keeps_Exec b query args w :
  Runner_Exec (wrapRunner b) query args w
  = (Exec (BaseRunner_Execer b) query args (trace w), after_call (EvExec query args) w) /\
  forall ctx,
    Runner_ExecContext (wrapRunner b) ctx query args w
    = (ExecContext (BaseRunner_ExecerContext b) ctx query args (trace w),
       after_call (EvExecContext ctx query args) w).
Proof.
  destruct b as [db|tx|c]; [done | done |].
  unfold wrapRunner. cbn [assertSqlDB assertSqlTx].
  destruct (assertRunner (custom c)) as [m|] eqn:Hm; [| done].
  apply assertRunner_custom in Hm as (_ & _ & _ & _ & He & Hec).
  cbn. unfold callExec, callExecContext. by rewrite He, Hec.
Qed.

(** X12. What [Query] and [QueryContext] of the wrapped runner do
    depends on the handle's own capability only, not on what else the
    handle implements: a [*sql.DB] or [*sql.Tx] is asked once and its
    rows are converted; a handle of another type that has the method is
    asked once, with the text and the arguments unchanged; one that has
    not gets the sentinel of the capability and is not called. *)
Theorem wrapped_Query_by_capability b query args w :
  Runner_Query (wrapRunner b) query args w
  = match b with
    | ptrSqlDB db =>
        (rowsResult (DB_Query db query args (trace w)), after_call (EvQuery query args) w)
    | ptrSqlTx tx =>
        (rowsResult (Tx_Query tx query args (trace w)), after_call (EvQuery query args) w)
    | custom c =>
        match c_Queryer c with
        | Some q => (Query q query args (trace w), after_call (EvQuery query args) w)
        | None => (Err ErrRunnerNotQueryer, w)
        end
    end /\
  forall ctx,
    Runner_QueryContext (wrapRunner b) ctx query args w
    = match b with
      | ptrSqlDB db =>
          (rowsResult (DB_QueryContext db ctx query args (trace w)),
           after_call (EvQueryContext ctx query args) w)
      | ptrSqlTx tx =>
          (rowsResult (Tx_QueryContext tx ctx query args (trace w)),
           after_call (EvQueryContext ctx query args) w)
      | custom c =>
          match c_QueryerContext c with
          | Some q =>
              (QueryContext q ctx query args (trace w),
               after_call (EvQueryContext ctx query args) w)
          | None => (Err ErrRunnerNotQueryerContext, w)
          end
      end.
Proof.
  destruct b as [db|tx|c]; [done | done |].
  destruct (assertRunner (custom c)) as [m|] eqn:Hm.
  - pose proof (assertRunner_custom c m Hm) as (Hq & Hqc & _).
    unfold wrapRunner. cbn [assertSqlDB assertSqlTx]. rewrite Hm, Hq, Hqc. done.
  - rewrite (assertRunner_None c Hm). cbn.
    unfold otherRunner_Query, otherRunner_QueryContext. cbn.
    split; [| intros ctx]; case_match; done.
Qed.

(** X13. [QueryRow] and [QueryRowContext] of the wrapped runner: a
    [*sql.DB] or [*sql.Tx] is asked once with the arguments unchanged; a
    handle of another type that has not the method gets a row storing the
    sentinel and is not called; one that has it is asked once, with the
    arguments unchanged when it has the whole [Runner] method set, and
    with the one argument that is the slice of them when it lacks any of
    the other three query methods. *)
Theorem wrapped_QueryRow_by_capability b query args w :
  Runner_QueryRow (wrapRunner b) query args w
  = match b with
    | ptrSqlDB db =>
        (rowOfSql (DB_QueryRow db query args (trace w)), after_call (EvQueryRow query args) w)
    | ptrSqlTx tx =>
        (rowOfSql (Tx_QueryRow tx query args (trace w)), after_call (EvQueryRow query args) w)
    | custom c =>
        match c_QueryRower c with
        | Some q =>
            let args' := if assertRunner b is Some _ then args else [VSlice args] in
            (QueryRow q query args' (trace w), after_call (EvQueryRow query args') w)
        | None => (RowPtr (mkRow nilRowScanner (Some ErrRunnerNotQueryRunner)), w)
        end
    end /\
  forall ctx,
    Runner_QueryRowContext (wrapRunner b) ctx query args w
    = match b with
      | ptrSqlDB db =>
          (rowOfSql (DB_QueryRowContext db ctx query args (trace w)),
           after_call (EvQueryRowContext ctx query args) w)
      | ptrSqlTx tx =>
          (rowOfSql (Tx_QueryRowContext tx ctx query args (trace w)),
           after_call (EvQueryRowContext ctx query args) w)
      | custom c =>
          match c_QueryRowerContext c with
          | Some q =>
              let args' := if assertRunner b is Some _ then args else [VSlice args] in
              (QueryRowContext q ctx query args' (trace w),
               after_call (EvQueryRowContext ctx query args') w)
          | None => (RowPtr (mkRow nilRowScanner (Some ErrRunnerNotQueryRunnerContext)), w)
          end
      end.
Proof.
  destruct b as [db|tx|c]; [done | done |].
  destruct (assertRunner (custom c)) as [m|] eqn:Hm.
  - pose proof (assertRunner_custom c m Hm) as (_ & _ & Hq & Hqc & _).
    unfold wrapRunner. cbn [assertSqlDB assertSqlTx]. rewrite Hm, Hq, Hqc. done.
  - rewrite (assertRunner_None c Hm). cbn.
    unfold otherRunner_QueryRow, otherRunner_QueryRowContext. cbn.
    split; [| intros ctx]; case_match; done.
Qed.

(** ** Invariants of the cacher *)

(** What one operation or tick does to the clock, the history and the
    map. *)
Lemma run_op_effect o sc w :
  let st := run_op o (sc, w) in
  now w <= now st.2 /\
  exists ext,
    trace st.2 = trace w ++ ext /\
    forall q v, cache st.1 !! q = Some v ->
      cache sc !! q = Some v \/
      (lastUse v = now w /\ now st.2 = now w /\
       (is_Some (cache sc !! q) \/ exists ctx, (ctx, q) ∈ prepare_calls ext)).
Proof.
  assert (Hprep : forall ctx q,
    let r := stmtCacher_PrepareContext ctx q sc w in
    now r.2 = now w /\
    exists ext,
      trace r.2 = trace w ++ ext /\
      forall q' v, cache r.1.2 !! q' = Some v ->
        cache sc !! q' = Some v \/
        (lastUse v = now w /\
         (is_Some (cache sc !! q') \/ exists ctx', (ctx', q') ∈ prepare_calls ext))).
  { intros ctx q.
    destruct (PrepareContext_cases ctx q sc w)
      as [(s & Hs & ->)|[(st & Hn & ->)|(e & Hn & ->)]]; cbn; (split; [done |]).
    - exists []. rewrite app_nil_r. split; [done |]. intros q' v.
      destruct (decide (q = q')) as [<-|Hne].
      + rewrite lookup_insert_eq. intros [= <-]. right. cbn. eauto.
      + rewrite lookup_insert_ne by done. eauto.
    - exists [EvPrepareContext ctx q]. split; [done |]. intros q' v.
      destruct (decide (q = q')) as [<-|Hne].
      + rewrite lookup_insert_eq. intros [= <-]. right. cbn. split; [done |].
        right. exists ctx. by apply list_elem_of_singleton.
      + rewrite lookup_insert_ne by done. eauto.
    - exists [EvPrepareContext ctx q]. split; [done |]. eauto. }
  assert (Hmore : forall ext e q' ctx',
    (is_Some (cache sc !! q') \/ (ctx', q') ∈ prepare_calls ext) ->
    is_Some (cache sc !! q') \/ exists ctx'', (ctx'', q') ∈ prepare_calls (ext ++ [e])).
  { intros ext e q' ctx' [?|Hin]; [by left |]. right. exists ctx'.
    rewrite prepare_calls_app. apply elem_of_app. by left. }
  destruct o as [ctx q|ctx q args|ctx q args|ctx q args|age|d]; cbn [run_op].
  - destruct (Hprep ctx q) as (Hnow & ext & Htr & Hc).
    destruct (stmtCacher_PrepareContext ctx q sc w) as [[r sc'] w']. cbn in *.
    split; [lia |]. exists ext. split; [done |]. intros q' v Hv.
    destruct (Hc q' v Hv) as [?|[? ?]]; eauto.
  - destruct (Hprep ctx q) as (Hnow & ext & Htr & Hc). rewrite ExecContext_unfold.
    destruct (stmtCacher_PrepareContext ctx q sc w) as [[[st|e] sc'] w']; cbn in *.
    + split; [lia |]. eexists (ext ++ [_]). rewrite Htr, <- app_assoc. split; [done |].
      intros q' v Hv. destruct (Hc q' v Hv) as [?|[? [?|[ctx' ?]]]]; eauto 10.
    + split; [lia |]. exists ext. split; [done |]. intros q' v Hv.
      destruct (Hc q' v Hv) as [?|[? ?]]; eauto.
  - destruct (Hprep ctx q) as (Hnow & ext & Htr & Hc). rewrite QueryContext_unfold.
    destruct (stmtCacher_PrepareContext ctx q sc w) as [[[st|e] sc'] w']; cbn in *.
    + split; [lia |]. eexists (ext ++ [_]). rewrite Htr, <- app_assoc. split; [done |].
      intros q' v Hv. destruct (Hc q' v Hv) as [?|[? [?|[ctx' ?]]]]; eauto 10.
    + split; [lia |]. exists ext. split; [done |]. intros q' v Hv.
      destruct (Hc q' v Hv) as [?|[? ?]]; eauto.
  - destruct (Hprep ctx q) as (Hnow & ext & Htr & Hc). rewrite QueryRowContext_unfold.
    destruct (stmtCacher_PrepareContext ctx q sc w) as [[[st|e] sc'] w']; cbn in *.
    + split; [lia |]. eexists (ext ++ [_]). rewrite Htr, <- app_assoc. split; [done |].
      intros q' v Hv. destruct (Hc q' v Hv) as [?|[? [?|[ctx' ?]]]]; eauto 10.
    + split; [lia |]. exists ext. split; [done |]. intros q' v Hv.
      destruct (Hc q' v Hv) as [?|[? ?]]; eauto.
  - unfold startCleanup_tick.
    pose proof (fun k v => cleanup_range_lookup age (map_to_list (cache sc)) sc w k v) as Hl.
    rewrite cleanup_range_eq in *. cbn in *. split; [lia |].
    eexists. split; [done |]. eauto.
  - cbn. split; [lia |]. exists []. rewrite app_nil_r. eauto.
Qed.

(** X19. The cacher holds no text it has not had prepared, and no entry
    from the future: after any operations, ticks and passing of time on a
    new cacher, whatever the preparer answers, every text in the map was
    the subject of a prepare call made since the cacher was made, and
    every entry was last used between the making of the cacher and
    now. *)
Theorem cached_texts_were_prepared p w ops :
  let st := run_ops ops (NewStmtCacher p, w) in
  now w <= now st.2 /\
  exists made,
    trace st.2 = trace w ++ made /\
    forall q v, cache st.1 !! q = Some v ->
      (exists ctx, (ctx, q) ∈ prepare_calls made) /\
      now w <= lastUse v <= now st.2.
Proof.
  induction ops as [|o ops IH] using rev_ind; intros st.
  - cbn. split; [lia |]. exists []. rewrite app_nil_r. split; [done |].
    intros q v Hv. by rewrite lookup_empty in Hv.
  - destruct IH as (Hnow & made & Htr & Hc).
    subst st. rewrite run_ops_app. cbn [run_ops foldl].
    destruct (run_ops ops (NewStmtCacher p, w)) as [sc' w'] eqn:E. cbn in Hnow, Htr, Hc.
    destruct (run_op_effect o sc' w') as (Hnow' & ext & Htr' & Hc').
    split; [lia |]. exists (made ++ ext). rewrite Htr', Htr, app_assoc. split; [done |].
    intros q v Hv. rewrite prepare_calls_app.
    destruct (Hc' q v Hv) as [Hold|(Hl & Hn & Hq)].
    + destruct (Hc q v Hold) as [[ctx Hin] ?]. split; [| lia].
      exists ctx. apply elem_of_app. by left.
    + split; [| lia]. destruct Hq as [[v' Hv']|[ctx Hin]].
      * destruct (Hc q v' Hv') as [[ctx Hin] ?]. exists ctx. apply elem_of_app. by left.
      * exists ctx. apply elem_of_app. by right.
Qed.

(** ** The values builder *)

Lemma ToSql_row_ok row args :
  Forall (fun val => value_err val = None) row ->
  ToSql_row row args = inl (value_sql <$> row, args ++ concat (value_args <$> row)).
Proof.
  revert args. induction row as [|val row IH]; intros args Hok.
  - cbn. by rewrite app_nil_r.
  - apply Forall_cons in Hok as [Hval Hok].
    destruct val as [sql eargs|s|v]; cbn in *.
    + rewrite IH by done. by rewrite <- app_assoc.
    + destruct (ToSql s) as [[valSql valArgs] err]. cbn in *. subst err.
      rewrite IH by done. by rewrite <- app_assoc.
    + rewrite IH by done. by rewrite <- app_assoc.
Qed.

Lemma ToSql_row_fails before s after args e :
  Forall (fun val => value_err val = None) before ->
  (ToSql s).2 = Some e ->
  ToSql_row (before ++ ofSqlizer s :: after) args
  = inr (args ++ concat (value_args <$> before), e).
Proof.
  revert args. induction before as [|val before IH]; intros args Hok He.
  - cbn. destruct (ToSql s) as [[valSql valArgs] err]. cbn in *. subst err.
    by rewrite app_nil_r.
  - apply Forall_cons in Hok as [Hval Hok].
    destruct val as [sql eargs|s'|v]; cbn in *.
    + rewrite IH by done. by rewrite <- app_assoc.
    + destruct (ToSql s') as [[valSql valArgs] err]. cbn in *. subst err.
      rewrite IH by done. by rewrite <- app_assoc.
    + rewrite IH by done. by rewrite <- app_assoc.
Qed.

Lemma ToSql_rows_ok rows args :
  Forall (Forall (fun val => value_err val = None)) rows ->
  ToSql_rows rows args
  = inl (row_sql <$> rows, args ++ concat (value_args <$> concat rows)).
Proof.
  revert args. induction rows as [|row rows IH]; intros args Hok.
  - cbn. by rewrite app_nil_r.
  - apply Forall_cons in Hok as [Hrow Hok]. cbn [ToSql_rows].
    rewrite ToSql_row_ok, IH by done. cbn [concat].
    by rewrite fmap_app, concat_app, <- app_assoc.
Qed.

Lemma ToSql_rows_fails rows before s after rest args e :
  Forall (Forall (fun val => value_err val = None)) rows ->
  Forall (fun val => value_err val = None) before ->
  (ToSql s).2 = Some e ->
  ToSql_rows (rows ++ (before ++ ofSqlizer s :: after) :: rest) args
  = inr (args ++ concat (value_args <$> (concat rows ++ before)), e).
Proof.
  revert args. induction rows as [|row rows IH]; intros args Hok Hbefore He.
  - cbn [ToSql_rows app concat]. by rewrite (ToSql_row_fails _ _ _ _ e).
  - apply Forall_cons in Hok as [Hrow Hok]. cbn [ToSql_rows app].
    rewrite ToSql_row_ok, IH by done. cbn [concat].
    by rewrite <- !app_assoc, !fmap_app, !concat_app, <- ?app_assoc.
Qed.

(** X14. A builder with at least one row, all of whose nested
    [Sqlizer]s render: the text handed to the placeholder format is
    [VALUES] followed by the rows, each in parentheses, the values of a
    row and the rows separated by commas; the arguments are those of the
    values in the order of the rows and, within a row, of the values; the
    text and the error returned are those of the placeholder format. *)
Theorem ValuesBuilder_ToSql_ok vb :
  values vb <> [] ->
  Forall (Forall (fun val => value_err val = None)) (values vb) ->
  ValuesBuilder_ToSql vb
  = ((placeholderFormat vb (values_sql (values vb))).1,
     concat (value_args <$> concat (values vb)),
     (placeholderFormat vb (values_sql (values vb))).2).
Proof.
  intros Hne Hok. unfold ValuesBuilder_ToSql.
  destruct (values vb) as [|row rows] eqn:E; [done |].
  rewrite ToSql_rows_ok by done. unfold values_sql. cbn [app].
  by destruct (placeholderFormat vb _).
Qed.

Lemma ValuesBuilder_ToSql_ok_witness :
  ValuesBuilder_ToSql twoRows
  = ("VALUES (?,NOW()),(?,?+?)", [VInt 1; VInt 2; VInt 3; VInt 4], None).
Proof.
  rewrite (ValuesBuilder_ToSql_ok twoRows ltac:(discriminate)
             ltac:(by repeat constructor)).
  reflexivity.
Defined.

(** X15. When a nested [Sqlizer] fails, [ToSql] of the builder returns
    the empty text, the error of the first one that fails (in the order
    of the rows and of the values), and the arguments gathered before it;
    the placeholder format is not consulted. *)
Theorem ValuesBuilder_ToSql_nested_error pf rows before s after rest e :
  Forall (Forall (fun val => value_err val = None)) rows ->
  Forall (fun val => value_err val = None) before ->
  (ToSql s).2 = Some e ->
  ValuesBuilder_ToSql
    {| placeholderFormat := pf;
       values := rows ++ (before ++ ofSqlizer s :: after) :: rest |}
  = (EmptyString, concat (value_args <$> (concat rows ++ before)), Some e).
Proof.
  intros Hok Hbefore He. unfold ValuesBuilder_ToSql. cbn [values].
  rewrite (ToSql_rows_fails _ _ _ _ _ _ e) by done.
  by destruct rows.
Qed.

Lemma ValuesBuilder_ToSql_nested_error_witness :
  ValuesBuilder_ToSql brokenRow
  = (EmptyString, [VInt 1; VInt 2; VInt 3; VInt 4; VInt 5],
     Some (errorString "values list is empty")).
Proof.
  apply (ValuesBuilder_ToSql_nested_error questionFormat (values twoRows)
           [ofOther (VInt 5)] emptyValuesBuilder [ofOther (VInt 6)] []
           (errorString "values list is empty"));
    [by repeat constructor | by repeat constructor | reflexivity].
Defined.

(** The builder without rows is the failing [Sqlizer] of the helpers'
    properties. *)
Lemma ValuesBuilder_no_rows pf :
  ValuesBuilder_Sqlizer {| placeholderFormat := pf; values := [] |} = emptyValuesBuilder.
Proof. done. Qed.

(** ** Callers of any texts *)

Lemma run_seq_snoc calls items it st :
  run_seq calls (items ++ [it]) st = run_seq_item calls it (run_seq calls items st).
Proof. unfold run_seq. by rewrite foldl_app. Qed.

Lemma lin_inv_start sc w calls : lin_inv sc w calls (start_with sc w calls).
Proof.
  exists [], sc, w, []. split; [done |]. split.
  { unfold start_with. cbn [c_threads]. rewrite <- list_fmap_compose.
    rewrite <- (list_fmap_id calls) at 2. apply list_fmap_ext. by intros ? [? ?]. }
  split; [constructor |]. split.
  { intros k t Hk. cbn in Hk. apply list_lookup_fmap_Some in Hk as ([ctx q] & -> & _).
    cbn. split; [done |]. by intros ?%elem_of_nil. }
  split; [by intros k r ?%elem_of_nil |]. done.
Qed.

Lemma lin_thread_other log log' holder holder' k p i :
  k <> i ->
  (holder = None /\ holder' = Some i) \/ (holder = Some i /\ holder' = Some i) \/
  (holder = Some i /\ holder' = None) ->
  log' = log \/ (exists r, log' = log ++ [(i, r)]) ->
  lin_thread log holder k p -> lin_thread log' holder' k p.
Proof.
  intros Hne Hh Hl.
  assert (Hin : forall r, (k, r) ∈ log -> (k, r) ∈ log').
  { intros r Hr. destruct Hl as [->|[r' ->]]; [done |]. apply elem_of_app. by left. }
  assert (Hnin : k ∉ log.*1 -> k ∉ log'.*1).
  { intros Hk. destruct Hl as [->|[r' ->]]; [done |].
    rewrite fmap_app, elem_of_app. cbn. rewrite list_elem_of_singleton. tauto. }
  assert (Hk : holder = Some k -> holder' = Some k) by (intros ->; naive_solver).
  assert (Hk' : holder <> Some k -> holder' <> Some k) by (intros ? ->; naive_solver).
  destruct p; cbn; intros [? ?]; auto.
Qed.

Lemma shape_move (threads : list thread) calls i t p :
  threads !! i = Some t ->
  thread_call <$> threads = calls ->
  thread_call <$> <[i := {| t_ctx := t_ctx t; t_query := t_query t; t_pc := p |}]> threads
  = calls.
Proof.
  intros Hi <-. rewrite list_fmap_insert. apply list_insert_id.
  by rewrite list_lookup_fmap, Hi.
Qed.

Lemma lookup_moved (threads : list thread) i t new :
  threads !! i = Some t -> <[i := new]> threads !! i = Some new.
Proof. intros Hi. apply list_lookup_insert_eq. by eapply lookup_lt_Some. Qed.

Section Linearization.
Variables (sc0 : stmtCacher) (w0 : world) (calls : list (Context * string)).

(** The invariant after a move of caller [i], now at [p]: what is left
    to show is the part about the caller itself. *)
Lemma lin_inv_move c i t p sc holder w items sc_s w_s log log' :
  c_threads c !! i = Some t ->
  thread_call <$> c_threads c = calls ->
  (forall k t', c_threads c !! k = Some t' -> lin_thread log (c_holder c) k (t_pc t')) ->
  (forall k r, (k, r) ∈ log ->
     exists t', c_threads c !! k = Some t' /\ (t_pc t' = AtUnlock r \/ t_pc t' = Done r)) ->
  (c_holder c = None /\ holder = Some i) \/ (c_holder c = Some i /\ holder = Some i) \/
  (c_holder c = Some i /\ holder = None) ->
  log' = log \/ (exists r, log' = log ++ [(i, r)]) ->
  run_seq calls items (sc0, w0, []) = (sc_s, w_s, log') ->
  NoDup log'.*1 ->
  lin_thread log' holder i p ->
  (forall r, (i, r) ∈ log' -> p = AtUnlock r \/ p = Done r) ->
  lin_state sc_s w_s (move c i t p sc holder w) ->
  lin_inv sc0 w0 calls (move c i t p sc holder w).
Proof.
  intros Hi Hshape Hts Hlog Hh Hl Hrun Hnd Hp Hpl Hst.
  exists items, sc_s, w_s, log'. split; [done |].
  split; [by apply shape_move |]. split; [done |].
  split; [| split; [| done]].
  - intros k t' Hk. cbn in Hk.
    apply (threads_insert_lookup _ _ _ _ _ _ Hi) in Hk as [[-> ->]|[Hne Hk]]; [done |].
    eapply lin_thread_other; eauto.
  - intros k r Hr. destruct (decide (k = i)) as [->|Hne].
    + eexists. split; [by eapply lookup_moved |]. cbn. by apply Hpl.
    + assert ((k, r) ∈ log) as Hr'.
      { destruct Hl as [->|[r' ->]]; [done |].
        apply elem_of_app in Hr as [?|Hr]; [done |].
        apply list_elem_of_singleton in Hr. congruence. }
      destruct (Hlog k r Hr') as (t' & Hk & Hpc). exists t'. split; [| done].
      cbn. by rewrite list_lookup_insert_ne.
Qed.

Lemma lin_inv_step i c : lin_inv sc0 w0 calls c -> lin_inv sc0 w0 calls (step i c).
Proof.
  intros Hinv. pose proof Hinv as (items & sc_s & w_s & log & Hrun & Hshape & Hnd & Hts & Hlog & Hst).
  unfold step. destruct (c_threads c !! i) as [t|] eqn:Hi; [| done].
  pose proof (Hts i t Hi) as Hth.
  assert (Hcall : calls !! i = Some (t_ctx t, t_query t)).
  { by rewrite <- Hshape, list_lookup_fmap, Hi. }
  assert (Hnotin : i ∉ log.*1 -> forall r, (i, r) ∈ log -> False).
  { intros Hn r Hr. apply Hn. apply list_elem_of_fmap. by exists (i, r). }
  assert (Hsnoc : forall r sc' w',
    stmtCacher_PrepareContext (t_ctx t) (t_query t) sc_s w_s = (r, sc', w') ->
    run_seq calls (items ++ [SeqCall i]) (sc0, w0, []) = (sc', w', log ++ [(i, r)])).
  { intros r sc' w' E. rewrite run_seq_snoc, Hrun. cbn. by rewrite Hcall, E. }
  assert (Hnd' : i ∉ log.*1 -> forall r, NoDup (log ++ [(i, r)]).*1).
  { intros Hn r. rewrite fmap_app. apply NoDup_app. split; [done |].
    split; [| apply NoDup_singleton]. intros x Hx ->%list_elem_of_singleton. done. }
  assert (Hlast : forall r r', i ∉ log.*1 -> (i, r') ∈ log ++ [(i, r)] -> r' = r).
  { intros r r' Hn [Hr|Hr]%elem_of_app; [by destruct (Hnotin Hn r') |].
    apply list_elem_of_singleton in Hr. congruence. }
  unfold lin_state in Hst.
  destruct (t_pc t) as [| | |st|r|r] eqn:Hp; cbn in Hth.
  - (* Lock *)
    destruct Hth as [Hfree Hn].
    destruct (c_holder c) as [j|] eqn:Hh; [done |]. destruct Hst as [Esc Ew]. subst sc_s w_s.
    eapply (lin_inv_move c i t _ _ _ _ items _ _ log log); eauto.
    + rewrite Hh. tauto.
    + done.
    + intros r Hr. by destruct (Hnotin Hn r).
    + unfold lin_state. cbn. by rewrite (lookup_moved _ _ _ _ Hi).
  - (* Lookup *)
    destruct Hth as [Hh Hn]. rewrite Hh, Hi, Hp in Hst. destruct Hst as [Esc Ew].
    subst sc_s w_s.
    destruct (cache (c_sc c) !! t_query t) as [s|] eqn:Hs.
    + cbn [time_Now].
      eapply (lin_inv_move c i t _ _ _ _ (items ++ [SeqCall i]) _ _ log
                (log ++ [(i, Ok (stmt s))])); eauto.
      * apply Hsnoc. by apply PrepareContext_hit.
      * cbn. split; [done |]. apply elem_of_app. right. by apply list_elem_of_singleton.
      * intros r' Hr'. left. f_equal. symmetry. by eapply Hlast.
      * unfold lin_state. cbn. rewrite Hh, (lookup_moved _ _ _ _ Hi). done.
    + eapply (lin_inv_move c i t _ _ _ _ items _ _ log log); eauto.
      * done.
      * intros r Hr. by destruct (Hnotin Hn r).
      * unfold lin_state. cbn. rewrite Hh, (lookup_moved _ _ _ _ Hi). done.
  - (* Prepare *)
    destruct Hth as [Hh Hn]. rewrite Hh, Hi, Hp in Hst. destruct Hst as (Esc & Ew & Hnone).
    subst sc_s w_s. unfold call.
    destruct (PrepareContext (prep (c_sc c)) (t_ctx t) (t_query t) (trace (c_world c)))
      as [st|e] eqn:Hprep.
    + eapply (lin_inv_move c i t _ _ _ _ items _ _ log log); eauto.
      * done.
      * intros r Hr. by destruct (Hnotin Hn r).
      * unfold lin_state. cbn. rewrite Hh, (lookup_moved _ _ _ _ Hi). done.
    + eapply (lin_inv_move c i t _ _ _ _ (items ++ [SeqCall i]) _ _ log
                (log ++ [(i, Err e)])); eauto.
      * apply Hsnoc. by apply PrepareContext_miss_err.
      * cbn. split; [done |]. apply elem_of_app. right. by apply list_elem_of_singleton.
      * intros r' Hr'. left. f_equal. symmetry. by eapply Hlast.
      * unfold lin_state. cbn. rewrite Hh, (lookup_moved _ _ _ _ Hi). done.
  - (* Store *)
    destruct Hth as [Hh Hn]. rewrite Hh, Hi, Hp in Hst.
    destruct Hst as (Esc & Ew & Hnone & Hprep). subst sc_s. cbn [time_Now].
    eapply (lin_inv_move c i t _ _ _ _ (items ++ [SeqCall i]) _ _ log
              (log ++ [(i, Ok st)])); eauto.
    + apply Hsnoc. by rewrite (PrepareContext_miss_ok _ _ _ _ _ Hnone Hprep).
    + cbn. split; [done |]. apply elem_of_app. right. by apply list_elem_of_singleton.
    + intros r' Hr'. left. f_equal. symmetry. by eapply Hlast.
    + unfold lin_state. cbn. rewrite Hh, (lookup_moved _ _ _ _ Hi). cbn.
      by rewrite Ew.
  - (* Unlock *)
    destruct Hth as [Hh Hr]. rewrite Hh, Hi, Hp in Hst. destruct Hst as [Esc Ew].
    subst sc_s w_s.
    eapply (lin_inv_move c i t _ _ _ _ items _ _ log log); eauto.
    + cbn. split; [done | done].
    + intros r' Hr'. right. f_equal.
      destruct (Hlog i r' Hr') as (t' & Hi' & Hpc). rewrite Hi in Hi'. injection Hi' as <-.
      rewrite Hp in Hpc. by destruct Hpc as [[= ->]|[=]].
    + unfold lin_state. cbn. done.
  - done.
Qed.

Lemma lin_inv_act a c : lin_inv sc0 w0 calls c -> lin_inv sc0 w0 calls (act a c).
Proof.
  destruct a as [i|d]; [apply lin_inv_step |].
  intros (items & sc_s & w_s & log & Hrun & Hshape & Hnd & Hts & Hlog & Hst).
  exists (items ++ [SeqElapse d]), sc_s, (elapse d w_s), log.
  split; [by rewrite run_seq_snoc, Hrun |].
  split; [done |]. split; [done |]. split; [done |]. split; [done |].
  unfold lin_state in *. cbn.
  destruct (c_holder c) as [j|]; [| destruct Hst as [E1 E2]; by rewrite E1, E2].
  destruct (c_threads c !! j) as [t|]; [| done].
  destruct (t_pc t); try done.
  - destruct Hst as [E1 E2]. by rewrite E1, E2.
  - destruct Hst as (E1 & E2 & ?). by rewrite E1, E2.
  - destruct Hst as (E1 & E2 & ? & ?). by rewrite E1, E2.
  - destruct Hst as [E1 E2]. by rewrite E1, E2.
Qed.

Lemma lin_inv_run sched c : lin_inv sc0 w0 calls c -> lin_inv sc0 w0 calls (run sched c).
Proof.
  revert c. induction sched as [|a sched IH]; intros c Hc; [done |].
  cbn. apply IH, lin_inv_act, Hc.
Qed.

Lemma lin_inv_exclusion c i j ti tj :
  lin_inv sc0 w0 calls c ->
  c_threads c !! i = Some ti -> c_threads c !! j = Some tj ->
  holds_lock (t_pc ti) = true -> holds_lock (t_pc tj) = true -> i = j.
Proof.
  intros (items & sc_s & w_s & log & _ & _ & _ & Hts & _) Hi Hj Hli Hlj.
  pose proof (Hts i ti Hi) as Hti. pose proof (Hts j tj Hj) as Htj.
  assert (c_holder c = Some i) by (destruct (t_pc ti); cbn in *; try done; tauto).
  assert (c_holder c = Some j) by (destruct (t_pc tj); cbn in *; try done; tauto).
  congruence.
Qed.

Lemma lin_inv_progress c :
  lin_inv sc0 w0 calls c -> ~ all_returned c -> exists i, enabled i c = true.
Proof.
  intros (items & sc_s & w_s & log & _ & _ & _ & Hts & _ & Hst) Hnot.
  unfold lin_state in Hst.
  destruct (c_holder c) as [j|] eqn:Hh.
  - exists j. unfold enabled.
    destruct (c_threads c !! j) as [t|]; [| done]. by destruct (t_pc t).
  - apply not_Forall_Exists in Hnot; [| apply _].
    apply Exists_exists in Hnot as (t & Hin & Hnr).
    apply list_elem_of_lookup in Hin as [k Hk].
    exists k. unfold enabled. rewrite Hk, Hh.
    pose proof (Hts k t Hk) as Hth.
    destruct (t_pc t) eqn:Hp; cbn in Hth; try done; try (by destruct Hth).
    exfalso. apply Hnr. unfold returned. rewrite Hp. eauto.
Qed.

Lemma lin_inv_completes n c :
  (work_left c <= n)%nat -> lin_inv sc0 w0 calls c ->
  exists rest, (length rest <= n)%nat /\ all_returned (run rest c).
Proof.
  revert c. induction n as [|n IH]; intros c Hn Hc;
    (destruct (decide (all_returned c)) as [Hall|Hnot];
       [exists []; split; [cbn; lia | done] |]);
    destruct (lin_inv_progress c Hc Hnot) as [i Hi];
    pose proof (step_work_left i c Hi) as Hlt.
  - lia.
  - destruct (IH (step i c)) as (rest & Hlen & Hrest); [lia | by apply lin_inv_step |].
    exists (Run i :: rest). split; [cbn; lia | done].
Qed.
End Linearization.

Lemma work_left_start sc w calls :
  work_left (start_with sc w calls) = (5 * length calls)%nat.
Proof.
  unfold work_left, start_with. cbn [c_threads]. rewrite <- list_fmap_compose.
  induction calls as [|cq calls IH]; [done |]. cbn in *. rewrite IH. lia.
Qed.

Lemma work_left_run sched c : (work_left (run sched c) <= work_left c)%nat.
Proof.
  revert c. induction sched as [|a sched IH]; intros c; [done |].
  cbn. etrans; [apply IH |].
  destruct a as [i|d]; [| done]. cbn.
  destruct (enabled i c) eqn:Hen; [pose proof (step_work_left i c Hen); lia |].
  unfold enabled, step in *.
  destruct (c_threads c !! i) as [t|]; [| done].
  destruct (t_pc t); try done. by destruct (c_holder c).
Qed.

(** X16. Concurrent calls of [PrepareContext] are as if they were made
    one after another: whatever the callers ask for, whatever the
    preparer answers and however the callers are scheduled, whenever the
    mutex is free the cacher and the world are those that the calls which
    have returned, made as a whole and one at a time in some order (with
    time passing in between), lead to, and each caller that has returned
    holds what its call returns in that order. *)
Theorem PrepareContext_linearizable sc w calls sched :
  let c := run sched (start_with sc w calls) in
  c_holder c = None ->
  exists items log,
    run_seq calls items (sc, w, []) = (c_sc c, c_world c, log) /\
    NoDup log.*1 /\
    forall k r, (k, r) ∈ log <->
                exists t, c_threads c !! k = Some t /\ returned t = Some r.
Proof.
  intros c Hfree.
  destruct (lin_inv_run sc w calls sched _ (lin_inv_start sc w calls))
    as (items & sc_s & w_s & log & Hrun & Hshape & Hnd & Hts & Hlog & Hst).
  fold c in Hshape, Hts, Hlog, Hst.
  unfold lin_state in Hst. rewrite Hfree in Hst. destruct Hst as [<- <-].
  exists items, log. split; [done |]. split; [done |].
  intros k r. split.
  - intros Hr. destruct (Hlog k r Hr) as (t & Hk & Hpc). exists t. split; [done |].
    pose proof (Hts k t Hk) as Hth. unfold returned.
    destruct Hpc as [Hpc|Hpc]; rewrite Hpc in *; cbn in Hth; [| done].
    destruct Hth as [Hth _]. congruence.
  - intros (t & Hk & Hr). pose proof (Hts k t Hk) as Hth. unfold returned in Hr.
    destruct (t_pc t); try done. injection Hr as ->. by destruct Hth.
Qed.

Lemma PrepareContext_linearizable_witness :
  let c := run threeInterleaved (start_with (NewStmtCacher freshPreparer) w0 threeCalls) in
  exists items log,
    run_seq threeCalls items (NewStmtCacher freshPreparer, w0, [])
    = (c_sc c, c_world c, log) /\ NoDup log.*1.
Proof.
  intros c.
  destruct (PrepareContext_linearizable (NewStmtCacher freshPreparer) w0 threeCalls
              threeInterleaved eq_refl) as (items & log & Hrun & Hnd & _).
  exists items, log. split; [exact Hrun | exact Hnd].
Defined.

(** X17. No caller of [PrepareContext] is kept waiting for ever by the
    others: whatever the callers ask for and whatever the preparer
    answers, every run can be continued until all callers have returned,
    in no more steps than five for each caller. *)
Theorem callers_always_return sc w calls sched :
  exists rest,
    (length rest <= 5 * length calls)%nat /\
    all_returned (run (sched ++ rest) (start_with sc w calls)).
Proof.
  pose proof (lin_inv_run sc w calls sched _ (lin_inv_start sc w calls)) as Hc.
  destruct (lin_inv_completes sc w calls _ _ (le_n _) Hc) as (rest & Hlen & Hrest).
  exists rest. split.
  - etrans; [exact Hlen |]. rewrite <- (work_left_start sc w calls). apply work_left_run.
  - unfold run in *. by rewrite foldl_app.
Qed.

(** X18. The mutex keeps the callers apart: at no moment of a run are
    two callers between [Lock] and [Unlock]. *)
Theorem one_caller_in_critical_section sc w calls sched i j ti tj :
  let c := run sched (start_with sc w calls) in
  c_threads c !! i = Some ti -> c_threads c !! j = Some tj ->
  i <> j -> holds_lock (t_pc ti) = true -> holds_lock (t_pc tj) = false.
Proof.
  intros c Hi Hj Hne Hli. apply not_true_is_false. intros Hlj. apply Hne.
  apply (lin_inv_exclusion sc w calls c i j ti tj); try done.
  apply lin_inv_run, lin_inv_start.
Qed.

Lemma one_caller_in_critical_section_witness :
  let c := run (take 5 threeInterleaved)
               (start_with (NewStmtCacher freshPreparer) w0 threeCalls) in
  t_pc <$> c_threads c !! 2%nat = Some (AtStore (sampleStmt 1)) /\
  holds_lock <$> (t_pc <$> c_threads c !! 0%nat) = Some false.
Proof.
  intros c. split; [reflexivity |].
  destruct (c_threads c !! 0%nat) as [t0|] eqn:H0; [| discriminate H0].
  cbn. f_equal.
  apply (one_caller_in_critical_section (NewStmtCacher freshPreparer) w0 threeCalls
           (take 5 threeInterleaved) 2%nat 0%nat
           {| t_ctx := WithCancel 2; t_query := "SELECT a"; t_pc := AtStore (sampleStmt 1) |}
           t0); [reflexivity | exact H0 | discriminate | reflexivity].
Defined.
